(** * PPM language model of the predictive scanning keyboard

    A shallow embedding of [src/ppm_language_model.js]: the vocabulary, the
    suffix trie with its backoff ("vine") links, the context cursor and the
    probability estimation [getProbs].

    Conventions of the embedding.
    - The objects the program allocates ([Node], [Context]) live in a store;
      a reference is an index into it and [None] is JavaScript's [null].
      The root node is the first node the constructor allocates, index 0.
    - Integer-valued JavaScript numbers (symbols, orders, counts) are [Z];
      they stay below 2^53 in every run a session can perform.
    - The arithmetic of [getProbs] is written once over a class [Number]
      and read at two instances: IEEE binary64 ([float], what the program
      runs on) and exact rationals ([Q], the arithmetic the algorithm is
      designed in).
    - [while] loops and the recursion of [addSymbolToNode_] follow links of
      the store; they are written with a step budget that the entry points
      set from the size of the store, and a run that exhausts it ends in
      [OutOfFuel].  The totality theorems show this never happens on a
      trie the program can build. *)

From Stdlib Require Import ZArith QArith Qabs Qminmax Lia Lqa List String Floats Uint63.
From stdpp Require Import base list.

Set Default Proof Using "Type".

(** ** Outcomes of a call *)

(** What [assert] and the runtime throw. *)
Inductive Error :=
| ErrVocabTooSmall            (* "Expecting at least two symbols in the vocabulary" *)
| ErrInvalidSymbol (symbol : Z) (* "Invalid symbol: " + symbol *)
| ErrBackoff                  (* "Expected valid backoff node" *)
| ErrChildMismatch            (* assert(symbolNode == context.head_.findChildWithSymbol(symbol)) *)
| ErrNegativeMass             (* "Invalid remaining probability mass: " + totalMass *)
| ErrMassNotZero              (* "Expected remaining probability mass to be zero!" *)
| ErrNotNormalised            (* assert(Math.abs(1.0 - newProbMass) < epsilon) *)
| TypeError.                  (* a property read on null *)

Inductive Outcome (A : Type) :=
| Ok (a : A)
| Throw (e : Error)
| OutOfFuel       (* the step budget of a loop ran out *)
| OutOfModel.     (* a dangling index, or an array written past its end *)
Arguments Ok {A} a.
Arguments Throw {A} e.
Arguments OutOfFuel {A}.
Arguments OutOfModel {A}.

Definition obind {A B} (m : Outcome A) (k : A → Outcome B) : Outcome B :=
  match m with
  | Ok a => k a
  | Throw e => Throw e
  | OutOfFuel => OutOfFuel
  | OutOfModel => OutOfModel
  end.

#[global] Instance Outcome_ret : MRet Outcome := λ A a, Ok a.
#[global] Instance Outcome_bind : MBind Outcome := λ A B k m, obind m k.

(** ** Numbers *)

Class Number (num : Type) := {
  ofZ : Z → num;
  nadd : num → num → num;
  nsub : num → num → num;
  nmul : num → num → num;
  ndiv : num → num → num;
  nabs : num → num;
  nleb : num → num → bool;
  nltb : num → num → bool;
  neqb : num → num → bool
}.

(** Exact rationals. *)
#[global] Instance Number_Q : Number Q := {|
  ofZ := inject_Z;
  nadd := Qplus; nsub := Qminus; nmul := Qmult; ndiv := Qdiv;
  nabs := Qabs;
  nleb := Qle_bool;
  nltb := λ a b, negb (Qle_bool b a);
  neqb := Qeq_bool
|}.

(** IEEE 754 binary64, JavaScript's number type.  The integers [getProbs]
    turns into numbers are counts and loop bounds: they are not negative
    and far below 2^53, where the conversion is exact. *)
#[global] Instance Number_float : Number float := {|
  ofZ := λ z, PrimFloat.of_uint63 (Uint63.of_Z z);
  nadd := PrimFloat.add; nsub := PrimFloat.sub;
  nmul := PrimFloat.mul; ndiv := PrimFloat.div;
  nabs := PrimFloat.abs;
  nleb := PrimFloat.leb;
  nltb := PrimFloat.ltb;
  neqb := PrimFloat.eqb
|}.

Section Constants.
Context {num : Type} `{Number num}.

(** The decimal literals of the source.  A literal denotes the number
    nearest to its decimal value, which is what the correctly rounded
    quotient of two exactly represented integers is. *)
Definition knAlpha : num := ndiv (ofZ 49) (ofZ 100).         (* 0.49 *)
Definition knBeta : num := ndiv (ofZ 77) (ofZ 100).          (* 0.77 *)
Definition epsilon : num := ndiv (ofZ 1) (ofZ 10000000000).  (* 1E-10 *)
End Constants.

(** ** Vocabulary *)

Record Vocabulary := mkVocabulary { symbols_ : list string }.

(** [new Vocabulary()]: the symbol array starts empty. *)
Definition newVocabulary : Vocabulary := mkVocabulary [].

Definition rootSymbol : Z := 0.

Definition size (v : Vocabulary) : Z := Z.of_nat (length (symbols_ v)).

(** [Array.prototype.indexOf]: the first index holding the value, or -1. *)
Fixpoint indexOf (l : list string) (s : string) : Z :=
  match l with
  | [] => -1
  | x :: l' =>
      if String.eqb x s then 0
      else let i := indexOf l' s in if (i <? 0)%Z then -1 else i + 1
  end%Z.

Definition includes (l : list string) (s : string) : bool :=
  existsb (String.eqb s) l.

(** [addSymbol] returns the index and the vocabulary it leaves. *)
Definition addSymbol (v : Vocabulary) (symbol : string) : Z * Vocabulary :=
  if negb (includes (symbols_ v) symbol) then
    let v' := mkVocabulary (symbols_ v ++ [symbol]) in
    ((Z.of_nat (length (symbols_ v')) - 1)%Z, v')
  else (indexOf (symbols_ v) symbol, v).

Definition getSymbolIndex (v : Vocabulary) (symbol : string) : Z :=
  indexOf (symbols_ v) symbol.

(** ** Nodes, contexts and the model *)

Record Node := mkNode {
  child_ : option nat;
  next_ : option nat;
  backoff_ : option nat;
  count_ : Z;
  symbol_ : Z
}.

(** [new Node()]. *)
Definition newNode : Node := mkNode None None None 1 rootSymbol.

Record Context := mkContext {
  head_ : option nat;
  order_ : Z
}.

(** The model with the store of the objects it works on.  [vocab_] is the
    vocabulary the model refers to; [contexts] holds the [Context] objects
    handed out to the caller. *)
Record PPMLanguageModel := mkModel {
  vocab_ : Vocabulary;
  maxOrder_ : Z;
  nodes : list Node;
  rootContext_ : Context;
  numNodes_ : Z;
  useExclusion_ : bool;
  contexts : list Context
}.

Definition root_ : nat := 0.

Definition setNodes (st : PPMLanguageModel) (h : list Node) : PPMLanguageModel :=
  mkModel (vocab_ st) (maxOrder_ st) h (rootContext_ st) (numNodes_ st)
          (useExclusion_ st) (contexts st).

Definition setContexts (st : PPMLanguageModel) (cs : list Context) : PPMLanguageModel :=
  mkModel (vocab_ st) (maxOrder_ st) (nodes st) (rootContext_ st) (numNodes_ st)
          (useExclusion_ st) cs.

Definition setNumNodes (st : PPMLanguageModel) (k : Z) : PPMLanguageModel :=
  mkModel (vocab_ st) (maxOrder_ st) (nodes st) (rootContext_ st) k
          (useExclusion_ st) (contexts st).

Definition setUseExclusion (st : PPMLanguageModel) (b : bool) : PPMLanguageModel :=
  mkModel (vocab_ st) (maxOrder_ st) (nodes st) (rootContext_ st) (numNodes_ st)
          b (contexts st).

Definition setVocab (st : PPMLanguageModel) (v : Vocabulary) : PPMLanguageModel :=
  mkModel v (maxOrder_ st) (nodes st) (rootContext_ st) (numNodes_ st)
          (useExclusion_ st) (contexts st).

(** ** Calls that mutate the store *)

Definition M (A : Type) : Type := PPMLanguageModel → Outcome A * PPMLanguageModel.

Definition ret {A} (a : A) : M A := λ st, (Ok a, st).

Definition bind {A B} (m : M A) (k : A → M B) : M B :=
  λ st, match m st with
        | (Ok a, st') => k a st'
        | (Throw e, st') => (Throw e, st')
        | (OutOfFuel, st') => (OutOfFuel, st')
        | (OutOfModel, st') => (OutOfModel, st')
        end.

#[global] Instance M_ret : MRet M := λ A a, ret a.
#[global] Instance M_bind : MBind M := λ A B k m, bind m k.

Definition throw {A} (e : Error) : M A := λ st, (Throw e, st).
Definition outOfFuel {A} : M A := λ st, (OutOfFuel, st).

(** A read of the store: the state is handed back untouched. *)
Definition reading {A} (f : PPMLanguageModel → Outcome A) : M A := λ st, (f st, st).

Definition assert (condition : bool) (e : Error) : M unit :=
  if condition then ret tt else throw e.

(** Dereferencing: [null] throws. *)
Definition deref (p : option nat) : M nat :=
  match p with Some q => ret q | None => throw TypeError end.

Definition lookupNode (h : list Node) (p : nat) : Outcome Node :=
  match h !! p with Some n => Ok n | None => OutOfModel end.

Definition loadNode (p : nat) : M Node := reading (λ st, lookupNode (nodes st) p).

Definition updNode (p : nat) (f : Node → Node) : M unit :=
  λ st, match nodes st !! p with
        | Some _ => (Ok tt, setNodes st (alter f p (nodes st)))
        | None => (OutOfModel, st)
        end.

Definition allocNode : M nat :=
  λ st, (Ok (length (nodes st)), setNodes st (nodes st ++ [newNode])).

Definition setChild (v : option nat) (n : Node) : Node :=
  mkNode v (next_ n) (backoff_ n) (count_ n) (symbol_ n).
Definition setNext (v : option nat) (n : Node) : Node :=
  mkNode (child_ n) v (backoff_ n) (count_ n) (symbol_ n).
Definition setBackoff (v : option nat) (n : Node) : Node :=
  mkNode (child_ n) (next_ n) v (count_ n) (symbol_ n).
Definition setSymbol (v : Z) (n : Node) : Node :=
  mkNode (child_ n) (next_ n) (backoff_ n) (count_ n) v.
Definition incCount (n : Node) : Node :=
  mkNode (child_ n) (next_ n) (backoff_ n) (count_ n + 1)%Z (symbol_ n).

Definition loadContext (c : nat) : M Context :=
  reading (λ st, match contexts st !! c with Some x => Ok x | None => OutOfModel end).

Definition updContext (c : nat) (f : Context → Context) : M unit :=
  λ st, match contexts st !! c with
        | Some _ => (Ok tt, setContexts st (alter f c (contexts st)))
        | None => (OutOfModel, st)
        end.

Definition allocContext (x : Context) : M nat :=
  λ st, (Ok (length (contexts st)), setContexts st (contexts st ++ [x])).

Definition setHead (v : option nat) (x : Context) : Context := mkContext v (order_ x).
Definition setOrder (v : Z) (x : Context) : Context := mkContext (head_ x) v.

(** ** Node *)

(** [Node.findChildWithSymbol]: the walk along the sibling list. *)
Fixpoint findChildLoop (fuel : nat) (h : list Node) (current : option nat)
    (symbol : Z) : Outcome (option nat) :=
  match current with
  | None => Ok None
  | Some p =>
      match fuel with
      | O => OutOfFuel
      | S f =>
          n ← lookupNode h p;
          if (symbol_ n =? symbol)%Z then Ok (Some p)
          else findChildLoop f h (next_ n) symbol
      end
  end.

Definition findChildWithSymbol (h : list Node) (this : nat) (symbol : Z)
    : Outcome (option nat) :=
  n ← lookupNode h this; findChildLoop (length h) h (child_ n) symbol.

(** An exclusion mask is [null] or a Boolean array; [maskAt m i] is the
    truth value of [exclusionMask && exclusionMask[i]]. *)
Definition maskAt (m : option (list bool)) (i : Z) : bool :=
  match m with
  | None => false
  | Some l => if (i <? 0)%Z then false else default false (l !! Z.to_nat i)
  end.

(** [Node.totalChildrenCounts]. *)
Fixpoint totalChildrenLoop (fuel : nat) (h : list Node) (exclusionMask : option (list bool))
    (childNode : option nat) (count : Z) : Outcome Z :=
  match childNode with
  | None => Ok count
  | Some p =>
      match fuel with
      | O => OutOfFuel
      | S f =>
          n ← lookupNode h p;
          let count' := if negb (maskAt exclusionMask (symbol_ n))
                        then (count + count_ n)%Z else count in
          totalChildrenLoop f h exclusionMask (next_ n) count'
      end
  end.

Definition totalChildrenCounts (h : list Node) (this : nat)
    (exclusionMask : option (list bool)) : Outcome Z :=
  n ← lookupNode h this; totalChildrenLoop (length h) h exclusionMask (child_ n) 0%Z.

(** ** PPMLanguageModel *)

(** The state the constructor builds when its assertion holds: the root
    node, the root context on it, one node counted, exclusion off. *)
Definition initModel (vocab : Vocabulary) (maxOrder : Z) : PPMLanguageModel :=
  mkModel vocab maxOrder [newNode] (mkContext (Some root_) 0) 1 false [].

(** The constructor. *)
Definition newModel (vocab : Vocabulary) (maxOrder : Z) : Outcome PPMLanguageModel :=
  if (size vocab >? 1)%Z then Ok (initModel vocab maxOrder)
  else Throw ErrVocabTooSmall.

Definition findChildM (node : nat) (symbol : Z) : M (option nat) :=
  reading (λ st, findChildWithSymbol (nodes st) node symbol).

Definition incNumNodes : M unit :=
  λ st, (Ok tt, setNumNodes st (numNodes_ st + 1)%Z).

(** [addSymbolToNode_]. *)
Fixpoint addSymbolToNode_ (fuel : nat) (node : nat) (symbol : Z) : M nat :=
  match fuel with
  | O => outOfFuel
  | S f =>
      found ← findChildM node symbol;
      match found with
      | Some symbolNode =>
          updNode symbolNode incCount;;
          mret symbolNode
      | None =>
          symbolNode ← allocNode;
          updNode symbolNode (setSymbol symbol);;
          n ← loadNode node;
          updNode symbolNode (setNext (child_ n));;
          updNode node (setChild (Some symbolNode));;
          incNumNodes;;
          if decide (node = root_) then
            updNode symbolNode (setBackoff (Some root_));;
            mret symbolNode
          else
            n' ← loadNode node;
            assert (bool_decide (backoff_ n' ≠ None)) ErrBackoff;;
            b ← deref (backoff_ n');
            r ← addSymbolToNode_ f b symbol;
            updNode symbolNode (setBackoff (Some r));;
            mret symbolNode
      end
  end.

(** The budget an entry point hands to a walk along backoff links. *)
Definition budget (st : PPMLanguageModel) : nat := S (length (nodes st)).

Definition withBudget {A} (f : nat → M A) : M A := λ st, f (budget st) st.

Definition growNode (node : nat) (symbol : Z) : M nat :=
  withBudget (λ fuel, addSymbolToNode_ fuel node symbol).

Definition createContext : M nat :=
  λ st, allocContext (mkContext (head_ (rootContext_ st)) (order_ (rootContext_ st))) st.

Definition cloneContext (context : nat) : M nat :=
  x ← loadContext context; allocContext (mkContext (head_ x) (order_ x)).

(** The loop of [addSymbolToContext]; [true] says the function returned from
    inside the loop. *)
Fixpoint addSymbolToContextLoop (fuel : nat) (context : nat) (symbol : Z) : M bool :=
  match fuel with
  | O => outOfFuel
  | S f =>
      x ← loadContext context;
      match head_ x with
      | None => mret false
      | Some h =>
          maxOrder ← reading (λ st, Ok (maxOrder_ st));
          childNode ← (if (order_ x <? maxOrder)%Z then findChildM h symbol
                       else mret None);
          match childNode with
          | Some ch =>
              updContext context (setHead (Some ch));;
              updContext context (λ y, setOrder (order_ y + 1)%Z y);;
              mret true
          | None =>
              updContext context (λ y, setOrder (order_ y - 1)%Z y);;
              y ← loadContext context;
              hp ← deref (head_ y);
              n ← loadNode hp;
              updContext context (setHead (backoff_ n));;
              addSymbolToContextLoop f context symbol
          end
      end
  end.

Definition addSymbolToContext (context : nat) (symbol : Z) : M unit :=
  if (symbol <=? rootSymbol)%Z then mret tt
  else
    sz ← reading (λ st, Ok (size (vocab_ st)));
    assert (symbol <? sz)%Z (ErrInvalidSymbol symbol);;
    returned ← withBudget (λ fuel, addSymbolToContextLoop fuel context symbol);
    if returned : bool then mret tt
    else
      x ← loadContext context;
      match head_ x with
      | None =>
          updContext context (setHead (Some root_));;
          updContext context (setOrder 0%Z)
      | Some _ => mret tt
      end.

(** The closing loop of [addSymbolAndUpdate]. *)
Fixpoint backoffLoop (fuel : nat) (context : nat) : M unit :=
  match fuel with
  | O => outOfFuel
  | S f =>
      x ← loadContext context;
      maxOrder ← reading (λ st, Ok (maxOrder_ st));
      if (order_ x >? maxOrder)%Z then
        hp ← deref (head_ x);
        n ← loadNode hp;
        updContext context (setHead (backoff_ n));;
        updContext context (λ y, setOrder (order_ y - 1)%Z y);;
        backoffLoop f context
      else mret tt
  end.

Definition addSymbolAndUpdate (context : nat) (symbol : Z) : M unit :=
  if (symbol <=? rootSymbol)%Z then mret tt
  else
    sz ← reading (λ st, Ok (size (vocab_ st)));
    assert (symbol <? sz)%Z (ErrInvalidSymbol symbol);;
    x ← loadContext context;
    h ← deref (head_ x);
    symbolNode ← growNode h symbol;
    x' ← loadContext context;
    h' ← deref (head_ x');
    found ← findChildM h' symbol;
    assert (bool_decide (found = Some symbolNode)) ErrChildMismatch;;
    updContext context (setHead (Some symbolNode));;
    updContext context (λ y, setOrder (order_ y + 1)%Z y);;
    withBudget (λ fuel, backoffLoop fuel context).

(** ** Probability estimation *)

Section GetProbs.
Context {num : Type} `{Number num}.

(** The local variables [probs], [totalMass] and [exclusionMask]. *)
Record Estimate := mkEstimate {
  probs : list num;
  totalMass : num;
  exclusionMask : option (list bool)
}.

(** [probs[symbol] += p; totalMass -= p; if (exclusionMask)
    exclusionMask[symbol] = true].  Both arrays have [numSymbols] cells;
    a write outside them is outside the model. *)
Definition assign (symbol : Z) (p : num) (e : Estimate) : Outcome Estimate :=
  if ((0 <=? symbol)%Z && (symbol <? Z.of_nat (length (probs e)))%Z)%bool then
    Ok (mkEstimate (alter (λ q, nadd q p) (Z.to_nat symbol) (probs e))
                   (nsub (totalMass e) p)
                   (option_map (λ m, <[Z.to_nat symbol := true]> m) (exclusionMask e)))
  else OutOfModel.

(** The mass one child receives:
    [gamma * (childNode.count_ - knBeta) / (count + knAlpha)]. *)
Definition childMass (gamma : num) (count : Z) (n : Node) : num :=
  ndiv (nmul gamma (nsub (ofZ (count_ n)) knBeta)) (nadd (ofZ count) knAlpha).

(** The inner loop over the children of one node of the backoff chain. *)
Fixpoint childLoop (fuel : nat) (h : list Node) (gamma : num) (count : Z)
    (childNode : option nat) (e : Estimate) : Outcome Estimate :=
  match childNode with
  | None => Ok e
  | Some c =>
      match fuel with
      | O => OutOfFuel
      | S f =>
          n ← lookupNode h c;
          let symbol := symbol_ n in
          e' ← (if negb (maskAt (exclusionMask e) symbol) then
                  let p := childMass gamma count n in
                  assign symbol p e
                else Ok e);
          childLoop f h gamma count (next_ n) e'
      end
  end.

(** The outer loop along the backoff chain. *)
Fixpoint backoffWalk (fuel : nat) (h : list Node) (node : option nat)
    (gamma : num) (e : Estimate) : Outcome Estimate :=
  match node with
  | None => Ok e
  | Some p =>
      match fuel with
      | O => OutOfFuel
      | S f =>
          n ← lookupNode h p;
          count ← totalChildrenCounts h p (exclusionMask e);
          e' ← (if (count >? 0)%Z
                then childLoop (length h) h gamma count (child_ n) e
                else Ok e);
          backoffWalk f h (backoff_ n) (totalMass e') e'
      end
  end.

(** [numUnseenSymbols]: the indices of [idx] that the mask does not exclude. *)
Fixpoint countUnseen (idx : list nat) (m : option (list bool)) : Z :=
  match idx with
  | [] => 0
  | i :: idx' =>
      ((if negb (maskAt m (Z.of_nat i)) then 1 else 0) + countUnseen idx' m)%Z
  end.

(** First redistribution loop. *)
Fixpoint uniformPass (idx : list nat) (remainingMass : num) (numUnseenSymbols : Z)
    (e : Estimate) : Estimate :=
  match idx with
  | [] => e
  | i :: idx' =>
      let e' :=
        if negb (maskAt (exclusionMask e) (Z.of_nat i)) then
          let p := ndiv remainingMass (ofZ numUnseenSymbols) in
          mkEstimate (alter (λ q, nadd q p) i (probs e))
                     (nsub (totalMass e) p) (exclusionMask e)
        else e in
      uniformPass idx' remainingMass numUnseenSymbols e'
  end.

(** Second redistribution loop; it also sums the result in [newProbMass].
    The index [i] runs over [1 .. numSymbols - 1], inside the array, so the
    read of [probs[i]] never takes the default. *)
Fixpoint finalPass (idx : list nat) (leftSymbols : Z) (newProbMass : num)
    (e : Estimate) : Estimate * num :=
  match idx with
  | [] => (e, newProbMass)
  | i :: idx' =>
      let p := ndiv (totalMass e) (ofZ leftSymbols) in
      let probs' := alter (λ q, nadd q p) i (probs e) in
      let newProbMass' := nadd newProbMass (default (ofZ 0) (probs' !! i)) in
      finalPass idx' (leftSymbols - 1)%Z newProbMass'
                (mkEstimate probs' (nsub (totalMass e) p) (exclusionMask e))
  end.

(** The two redistribution loops: the estimate they leave, with
    [newProbMass]. *)
Definition blend (numSymbols : nat) (e : Estimate) : Estimate * num :=
  let idx := seq 1 (numSymbols - 1) in
  let numUnseenSymbols := countUnseen idx (exclusionMask e) in
  let remainingMass := totalMass e in
  let e1 := uniformPass idx remainingMass numUnseenSymbols e in
  finalPass idx (Z.of_nat numSymbols - 1)%Z (ofZ 0) e1.

(** The part of [getProbs] after the walk. *)
Definition redistribute (numSymbols : nat) (e : Estimate) : Outcome (list num) :=
  if negb (nleb (ofZ 0) (totalMass e)) then Throw ErrNegativeMass
  else
    let '(e2, newProbMass) := blend numSymbols e in
    if negb (neqb (totalMass e2) (ofZ 0)) then Throw ErrMassNotZero
    else if negb (nltb (nabs (nsub (ofZ 1) newProbMass)) epsilon)
         then Throw ErrNotNormalised
         else Ok (probs e2).

Definition initialEstimate (numSymbols : nat) (useExclusion : bool) : Estimate :=
  mkEstimate (replicate numSymbols (ofZ 0)) (ofZ 1)
             (if useExclusion then Some (replicate numSymbols false) else None).

(** The walk of [getProbs], up to the first assertion. *)
Definition estimate (st : PPMLanguageModel) (context : nat) : Outcome Estimate :=
  match contexts st !! context with
  | None => OutOfModel
  | Some x =>
      let numSymbols := length (symbols_ (vocab_ st)) in
      backoffWalk (budget st) (nodes st) (head_ x) (ofZ 1)
                  (initialEstimate numSymbols (useExclusion_ st))
  end.

Definition getProbs (st : PPMLanguageModel) (context : nat) : Outcome (list num) :=
  e ← estimate st context;
  redistribute (length (symbols_ (vocab_ st))) e.
End GetProbs.

Arguments Estimate num : clear implicits.

(** The store in the middle of [addSymbolToNode_], when the node for
    [symbol] has been allocated and linked in as the first child of [node]
    and its backoff link is still to be set. *)
Definition linkChild (st : PPMLanguageModel) (node : nat) (symbol : Z) : PPMLanguageModel :=
  let q := length (nodes st) in
  let first := default None (child_ <$> nodes st !! node) in
  setNumNodes
    (setNodes st (alter (setChild (Some q)) node
                        (nodes st ++ [mkNode None first None 1 symbol])))
    (numNodes_ st + 1)%Z.

(** Setting the backoff link of node [q]. *)
Definition linkBackoff (st : PPMLanguageModel) (q r : nat) : PPMLanguageModel :=
  setNodes st (alter (setBackoff (Some r)) q (nodes st)).

(** ** Sessions *)

(** What a caller can do with a model once it is constructed.  A call that
    throws leaves the store as it was at the throw; the caller goes on. *)
Inductive Op :=
| OpCreateContext
| OpCloneContext (context : nat)
| OpAddSymbolToContext (context : nat) (symbol : Z)
| OpAddSymbolAndUpdate (context : nat) (symbol : Z)
| OpSetUseExclusion (b : bool)
| OpVocabAddSymbol (s : string).

Definition step (st : PPMLanguageModel) (op : Op) : PPMLanguageModel :=
  match op with
  | OpCreateContext => snd (createContext st)
  | OpCloneContext c => snd (cloneContext c st)
  | OpAddSymbolToContext c symbol => snd (addSymbolToContext c symbol st)
  | OpAddSymbolAndUpdate c symbol => snd (addSymbolAndUpdate c symbol st)
  | OpSetUseExclusion b => setUseExclusion st b
  | OpVocabAddSymbol s => setVocab st (snd (addSymbol (vocab_ st) s))
  end.

Definition exec (st : PPMLanguageModel) (ops : list Op) : PPMLanguageModel :=
  fold_left step ops st.

(** A state some session reaches. *)
Definition session (vocab : Vocabulary) (maxOrder : Z) (ops : list Op) : PPMLanguageModel :=
  exec (initModel vocab maxOrder) ops.

(** The scenario of the specification: vocabulary {root, A, B}, maximum
    order 2, the symbols A, A, B observed from a fresh context. *)
Definition exampleVocab : Vocabulary := mkVocabulary ["<R>"; "A"; "B"]%string.

Definition exampleOps : list Op :=
  [OpCreateContext; OpAddSymbolAndUpdate 0 1; OpAddSymbolAndUpdate 0 1;
   OpAddSymbolAndUpdate 0 2].

Definition exampleModel : PPMLanguageModel := session exampleVocab 2 exampleOps.

(** ** Well-formed tries *)

(** [d] gives each node its depth in the trie, the length of the context it
    stands for; [sz] is the size of the vocabulary. *)
Record wfNode (d : nat → nat) (sz : Z) (h : list Node) (p : nat) (n : Node) : Prop := {
  wf_child : ∀ c, child_ n = Some c → c < length h ∧ d c = S (d p);
  wf_next : ∀ s, next_ n = Some s → s < p ∧ d s = d p;
  wf_backoff : ∀ b, backoff_ n = Some b → b < length h ∧ S (d b) = d p;
  wf_count : (1 ≤ count_ n)%Z;
  wf_depth : d p ≤ p;
  wf_symbol : p ≠ root_ → (0 < symbol_ n < sz)%Z
}.

Definition wfTrie (d : nat → nat) (sz : Z) (h : list Node) : Prop :=
  d root_ = 0 ∧ 0 < length h ∧ ∀ p n, h !! p = Some n → wfNode d sz h p n.

(** Every node but the root of depth at most [k] has its backoff link. *)
Definition complete (d : nat → nat) (k : nat) (h : list Node) : Prop :=
  ∀ p n, h !! p = Some n → p ≠ root_ → d p ≤ k → backoff_ n ≠ None.

Definition wfContext (d : nat → nat) (st : PPMLanguageModel) (x : Context) : Prop :=
  ∃ hd, head_ x = Some hd ∧ hd < length (nodes st) ∧
        order_ x = Z.of_nat (d hd) ∧ (order_ x ≤ maxOrder_ st)%Z.

Definition wfModel (d : nat → nat) (st : PPMLanguageModel) : Prop :=
  wfTrie d (size (vocab_ st)) (nodes st) ∧
  (∀ k, complete d k (nodes st)) ∧
  (1 < size (vocab_ st))%Z ∧
  (0 ≤ maxOrder_ st)%Z ∧
  rootContext_ st = mkContext (Some root_) 0 ∧
  ∀ c x, contexts st !! c = Some x → wfContext d st x.

Definition WF (st : PPMLanguageModel) : Prop := ∃ d, wfModel d st.

(** The depth map once node [q] is given depth [k]. *)
Definition extend (d : nat → nat) (q k : nat) : nat → nat :=
  λ x, if decide (x = q) then k else d x.

(** What a growth at node [p] keeps of the nodes that exist: the symbol and
    the sibling and backoff links of every node, the first-child link of
    the nodes deeper than [p], the count of the nodes deeper than the
    children of [p]; no count goes down. *)
Definition grows (d : nat → nat) (p : nat) (h h' : list Node) : Prop :=
  ∀ q n, h !! q = Some n →
    ∃ n', h' !! q = Some n' ∧ symbol_ n' = symbol_ n ∧ next_ n' = next_ n ∧
          backoff_ n' = backoff_ n ∧ (count_ n ≤ count_ n')%Z ∧
          (d p < d q → child_ n' = child_ n) ∧
          (S (d p) < d q → count_ n' = count_ n).

(** Two stores whose nodes carry the same symbols and sibling links. *)
Definition sameLinks (h h' : list Node) : Prop :=
  ∀ p n, h !! p = Some n →
    ∃ n', h' !! p = Some n' ∧ symbol_ n' = symbol_ n ∧ next_ n' = next_ n.

(** The fields of the model a growth of the trie does not touch. *)
Definition sameFrame (st st' : PPMLanguageModel) : Prop :=
  vocab_ st' = vocab_ st ∧ maxOrder_ st' = maxOrder_ st ∧
  rootContext_ st' = rootContext_ st ∧ useExclusion_ st' = useExclusion_ st ∧
  contexts st' = contexts st.

(** The postcondition of a growth at [p] that returns [r] in store [st']
    with depth map [d']. *)
Definition grown (st : PPMLanguageModel) (d : nat → nat) (p : nat) (symbol : Z)
    (r : nat) (st' : PPMLanguageModel) (d' : nat → nat) : Prop :=
  wfTrie d' (size (vocab_ st)) (nodes st') ∧
  (∀ x, x < length (nodes st) → d' x = d x) ∧
  grows d p (nodes st) (nodes st') ∧
  (∀ x n, length (nodes st) ≤ x → nodes st' !! x = Some n → backoff_ n ≠ None) ∧
  findChildWithSymbol (nodes st') p symbol = Ok (Some r) ∧
  d' r = S (d p) ∧ r < length (nodes st') ∧
  sameFrame st st'.

(** The trie and the configuration of the model are the same in both
    states; only the contexts may differ. *)
Definition sameTrie (st st' : PPMLanguageModel) : Prop :=
  nodes st' = nodes st ∧ numNodes_ st' = numNodes_ st ∧
  vocab_ st' = vocab_ st ∧ maxOrder_ st' = maxOrder_ st ∧
  rootContext_ st' = rootContext_ st ∧ useExclusion_ st' = useExclusion_ st.

(** A call that does not write to the trie, whatever its outcome. *)
Definition readsTrie {A} (m : M A) : Prop := ∀ st, sameTrie st (snd (m st)).

(** A context in the middle of [addSymbolToContext]: its head may have run
    off the root. *)
Definition looseContext (d : nat → nat) (st : PPMLanguageModel) (fuel : nat)
    (x : Context) : Prop :=
  (order_ x ≤ maxOrder_ st)%Z ∧
  match head_ x with
  | Some hd => hd < length (nodes st) ∧ order_ x = Z.of_nat (d hd) ∧ S (d hd) < fuel
  | None => 0 < fuel
  end.

(** The state in which context [c] has become [x]. *)
Definition withContext (st : PPMLanguageModel) (c : nat) (x : Context) : PPMLanguageModel :=
  setContexts st (<[c := x]> (contexts st)).

(** [m'] excludes at least the symbols [m] excludes. *)
Definition maskLe (m m' : option (list bool)) : Prop :=
  ∀ i, maskAt m i = true → maskAt m' i = true.

(** What [getProbs] returns on a context at the root of a trie that has
    only its root, as a function of the number of symbols. *)
Definition freshProbs {num : Type} `{Number num} (numSymbols : nat) (useExclusion : bool)
    : Outcome (list num) :=
  redistribute numSymbols (initialEstimate numSymbols useExclusion).

(** The binary64 run of [freshProbs] returns 0 at index 0 and, at every
    other index, a number within [epsilon] of [1 / (numSymbols - 1)]. *)
Definition nearUniform (numSymbols : nat) (useExclusion : bool) : bool :=
  match freshProbs (num := float) numSymbols useExclusion with
  | Ok (p0 :: ps) =>
      neqb p0 (ofZ 0) && (length ps =? numSymbols - 1)%nat &&
      forallb (λ p, nltb (nabs (nsub p (ndiv (ofZ 1) (ofZ (Z.of_nat numSymbols - 1)))))
                         epsilon) ps
  | _ => false
  end.

(** A vocabulary of four symbols. *)
Definition fourSymbols : Vocabulary := mkVocabulary ["<R>"; "A"; "B"; "C"]%string.

(** Sum of a list of rationals. *)
Definition sumQ (l : list Q) : Q := fold_right Qplus 0%Q l.

(** What the loops of [getProbs] keep of an estimate over [n] symbols, in
    exact arithmetic: the arrays keep their size, no entry is negative, and
    the entries of the real symbols and the unassigned mass add up to 1. *)
Definition okEstimate (n : nat) (e : Estimate Q) : Prop :=
  length (probs e) = n ∧
  (∀ m, exclusionMask e = Some m → length m = n) ∧
  Forall (Qle 0) (probs e) ∧
  (sumQ (tail (probs e)) + totalMass e == 1)%Q.

(** * Part II: properties *)

(** ** The store and the monad *)

Lemma bind_Ok {A B} (m : M A) (k : A → M B) st a st' :
  m st = (Ok a, st') → (m ≫= k) st = k a st'.
Proof. intros E. unfold mbind, M_bind, bind. by rewrite E. Qed.

Lemma lookupNode_Ok h p n : h !! p = Some n → lookupNode h p = Ok n.
Proof. unfold lookupNode. by intros ->. Qed.

Lemma lookupNode_inv h p n : lookupNode h p = Ok n → h !! p = Some n.
Proof. unfold lookupNode. by destruct (h !! p) as [m|]; [intros [= ->]|]. Qed.

Lemma loadNode_Ok st p n : nodes st !! p = Some n → loadNode p st = (Ok n, st).
Proof. intros E. unfold loadNode, reading. by rewrite (lookupNode_Ok _ _ _ E). Qed.

Lemma updNode_Ok st p f :
  p < length (nodes st) →
  updNode p f st = (Ok tt, setNodes st (alter f p (nodes st))).
Proof.
  intros Hp. destruct (lookup_lt_is_Some_2 _ _ Hp) as [n E].
  unfold updNode. by rewrite E.
Qed.

Lemma updContext_Ok st c f :
  c < length (contexts st) →
  updContext c f st = (Ok tt, setContexts st (alter f c (contexts st))).
Proof.
  intros Hc. destruct (lookup_lt_is_Some_2 _ _ Hc) as [x E].
  unfold updContext. by rewrite E.
Qed.

Lemma loadContext_Ok st c x :
  contexts st !! c = Some x → loadContext c st = (Ok x, st).
Proof. intros E. unfold loadContext, reading. by rewrite E. Qed.

Lemma findChildM_eq st node symbol :
  findChildM node symbol st = (findChildWithSymbol (nodes st) node symbol, st).
Proof. done. Qed.

Lemma allocNode_eq st :
  allocNode st = (Ok (length (nodes st)), setNodes st (nodes st ++ [newNode])).
Proof. done. Qed.

Lemma incNumNodes_eq st :
  incNumNodes st = (Ok tt, setNumNodes st (numNodes_ st + 1)%Z).
Proof. done. Qed.

(** One step through a [bind] whose first call is known to return. *)
Ltac mstep tac := erewrite bind_Ok; [|tac]; cbv beta iota.

(** ** The unfolding equations of [addSymbolToNode_] *)

Lemma findChild_valid h node symbol r :
  findChildWithSymbol h node symbol = Ok r → is_Some (h !! node).
Proof.
  unfold findChildWithSymbol, lookupNode. destruct (h !! node); [eauto|done].
Qed.

Lemma addSymbolToNode_found fuel st node symbol r :
  findChildWithSymbol (nodes st) node symbol = Ok (Some r) →
  r < length (nodes st) →
  addSymbolToNode_ (S fuel) node symbol st
  = (Ok r, setNodes st (alter incCount r (nodes st))).
Proof.
  intros E Hr. cbn [addSymbolToNode_].
  mstep ltac:(by rewrite findChildM_eq, E).
  mstep ltac:(by apply updNode_Ok). done.
Qed.

Lemma addSymbolToNode_fresh fuel st node symbol :
  findChildWithSymbol (nodes st) node symbol = Ok None →
  addSymbolToNode_ (S fuel) node symbol st
  = (if decide (node = root_) then
       updNode (length (nodes st)) (setBackoff (Some root_));;
       mret (length (nodes st))
     else
       n' ← loadNode node;
       assert (bool_decide (backoff_ n' ≠ None)) ErrBackoff;;
       b ← deref (backoff_ n');
       r ← addSymbolToNode_ fuel b symbol;
       updNode (length (nodes st)) (setBackoff (Some r));;
       mret (length (nodes st)))
      (linkChild st node symbol).
Proof.
  intros E. destruct (findChild_valid _ _ _ _ E) as [n Hn].
  pose proof (lookup_lt_Some _ _ _ Hn) as Hlt.
  cbn [addSymbolToNode_].
  mstep ltac:(by rewrite findChildM_eq, E).
  mstep ltac:(apply allocNode_eq).
  set (q := length (nodes st)).
  mstep ltac:(apply updNode_Ok; cbn; rewrite length_app; cbn; lia).
  mstep ltac:(apply loadNode_Ok with (n := n); cbn).
  2:{ rewrite list_lookup_alter_ne by (unfold q; lia). by rewrite lookup_app_l. }
  mstep ltac:(eapply updNode_Ok; cbn; rewrite !length_alter, length_app; cbn; lia).
  mstep ltac:(eapply updNode_Ok; cbn; rewrite !length_alter, length_app; cbn; lia).
  mstep ltac:(apply incNumNodes_eq).
  f_equal. unfold linkChild, setNumNodes, setNodes; cbn. f_equal.
  rewrite Hn. cbn. fold q. f_equal.
  unfold q. rewrite !alter_app_r_alt by lia. by rewrite Nat.sub_diag.
Qed.

(** ** Walks along sibling lists *)

Section Siblings.
Context (d : nat → nat) (sz : Z) (h : list Node).
Hypothesis Hwf : wfTrie d sz h.

Lemma wfTrie_node p n : h !! p = Some n → wfNode d sz h p n.
Proof using Hwf. destruct Hwf as (_ & _ & H). apply H. Qed.

(** The walk stays at one depth, ends within the budget, and what it
    finds carries the symbol. *)
Lemma findChildLoop_total fuel c symbol :
  c < length h → c < fuel →
  ∃ r, findChildLoop fuel h (Some c) symbol = Ok r ∧
       ∀ q, r = Some q →
            q < length h ∧ d q = d c ∧ ∃ n, h !! q = Some n ∧ symbol_ n = symbol.
Proof using Hwf.
  revert c. induction fuel as [|f IH]; intros c Hc Hf; [lia|].
  destruct (lookup_lt_is_Some_2 _ _ Hc) as [n Hn].
  cbn. rewrite (lookupNode_Ok _ _ _ Hn). cbn.
  destruct (Z.eqb_spec (symbol_ n) symbol) as [Hs|Hs].
  - eexists; split; [done|]. intros q [= <-]. eauto.
  - destruct (next_ n) as [s|] eqn:Hnext.
    + destruct (wf_next _ _ _ _ _ (wfTrie_node _ _ Hn) s Hnext) as [Hlt Hd].
      destruct (IH s) as (r & Hr & Hq); [lia|lia|].
      exists r. split; [done|]. intros q ->.
      destruct (Hq q eq_refl) as (? & ? & ?). split_and!; [done|congruence|done].
    + exists None. split; [by destruct f|]. done.
Qed.

Lemma findChildWithSymbol_total p symbol :
  p < length h →
  ∃ r, findChildWithSymbol h p symbol = Ok r ∧
       ∀ q, r = Some q →
            q < length h ∧ d q = S (d p) ∧ ∃ n, h !! q = Some n ∧ symbol_ n = symbol.
Proof using Hwf.
  intros Hp. destruct (lookup_lt_is_Some_2 _ _ Hp) as [n Hn].
  unfold findChildWithSymbol. rewrite (lookupNode_Ok _ _ _ Hn). cbn.
  destruct (child_ n) as [c|] eqn:Hc.
  - destruct (wf_child _ _ _ _ _ (wfTrie_node _ _ Hn) c Hc) as [Hlt Hd].
    destruct (findChildLoop_total (length h) c symbol) as (r & Hr & Hq); [done..|].
    exists r. split; [done|]. intros q ->.
    destruct (Hq q eq_refl) as (? & ? & ?). split_and!; [done|congruence|done].
  - exists None. split; [by destruct (length h)|done].
Qed.
End Siblings.

(** A walk that ended finds the same node with a larger budget and in any
    store that kept the symbols and the sibling links. *)
Lemma findChildLoop_frame fuel fuel' h h' current symbol r :
  sameLinks h h' → fuel ≤ fuel' →
  findChildLoop fuel h current symbol = Ok r →
  findChildLoop fuel' h' current symbol = Ok r.
Proof.
  intros Hl. revert fuel' current.
  induction fuel as [|f IH]; intros fuel' [c|] Hle E; cbn in E; try done.
  - by destruct fuel'.
  - destruct fuel' as [|f']; [lia|]. cbn.
    destruct (lookupNode h c) as [n| | |] eqn:Hn; try done. cbn in E.
    apply lookupNode_inv in Hn. destruct (Hl _ _ Hn) as (n' & Hn' & Hs & Hx).
    rewrite (lookupNode_Ok _ _ _ Hn'). cbn. rewrite Hs, Hx.
    destruct (symbol_ n =? symbol)%Z; [done|]. apply IH; [lia|done].
  - by destruct fuel'.
Qed.

(** ** Growth keeps the trie well formed *)

Lemma extend_old d q k x : x ≠ q → extend d q k x = d x.
Proof. intros. unfold extend. by rewrite decide_False. Qed.

Lemma extend_new d q k : extend d q k q = k.
Proof. unfold extend. by rewrite decide_True. Qed.

Lemma nodes_linkChild st p symbol :
  nodes (linkChild st p symbol)
  = alter (setChild (Some (length (nodes st)))) p
      (nodes st ++ [mkNode None (default None (child_ <$> nodes st !! p)) None 1 symbol]).
Proof. done. Qed.

Lemma length_linkChild st p symbol :
  length (nodes (linkChild st p symbol)) = S (length (nodes st)).
Proof. rewrite nodes_linkChild, length_alter, length_app. cbn. lia. Qed.

(** The nodes of the store after linking: the parent with its new first
    child, the nodes that were there, and the new node. *)
Lemma lookup_linkChild st p symbol x m :
  p < length (nodes st) →
  nodes (linkChild st p symbol) !! x = Some m →
  (x = p ∧ ∃ n, nodes st !! p = Some n ∧ m = setChild (Some (length (nodes st))) n) ∨
  (x ≠ p ∧ nodes st !! x = Some m) ∨
  (x = length (nodes st) ∧
   m = mkNode None (default None (child_ <$> nodes st !! p)) None 1 symbol).
Proof.
  intros Hp. rewrite nodes_linkChild. intros E.
  destruct (decide (x = p)) as [->|Hx].
  - left. split; [done|]. rewrite list_lookup_alter_eq, lookup_app_l in E by done.
    destruct (nodes st !! p) as [n|]; [|done]. injection E as <-. eauto.
  - right. rewrite list_lookup_alter_ne in E by done.
    destruct (decide (x < length (nodes st))) as [Hlt|Hge].
    + left. by rewrite lookup_app_l in E.
    + right. rewrite lookup_app_r in E by lia.
      destruct (x - length (nodes st)) as [|k] eqn:Hk; [|done].
      injection E as <-. split; [lia|done].
Qed.

Lemma wfTrie_linkChild d sz st p symbol :
  wfTrie d sz (nodes st) → p < length (nodes st) → (0 < symbol < sz)%Z →
  wfTrie (extend d (length (nodes st)) (S (d p))) sz (nodes (linkChild st p symbol)).
Proof.
  intros (Hroot & Hlen & Hall) Hp Hsym.
  pose proof (length_linkChild st p symbol) as Hlen1.
  assert (Hq : ∃ q, q = length (nodes st)) by eauto. destruct Hq as [q Hq].
  rewrite <- Hq.
  assert (Hold : ∀ x, x < q → extend d q (S (d p)) x = d x)
    by (intros; apply extend_old; lia).
  assert (Hnew : extend d q (S (d p)) q = S (d p)) by apply extend_new.
  split_and!.
  - rewrite Hold; [done|unfold root_; lia].
  - lia.
  - intros x m E.
    destruct (lookup_linkChild _ _ _ _ _ Hp E)
      as [(-> & n & Hn & ->)|[(Hx & Hm)|(-> & ->)]].
    + destruct (Hall _ _ Hn) as [Hc Hs Hb Hcnt Hd Hsy].
      split; cbn [child_ next_ backoff_ count_ symbol_ setChild].
      * intros c [= <-]. rewrite <- Hq, Hnew, Hold by lia. split; [lia|done].
      * intros s Hs'. destruct (Hs s Hs'). rewrite !Hold by lia. done.
      * intros b Hb'. destruct (Hb b Hb'). rewrite !Hold by lia. split; [lia|done].
      * done.
      * rewrite Hold by lia; lia.
      * done.
    + pose proof (lookup_lt_Some _ _ _ Hm) as Hlt.
      destruct (Hall _ _ Hm) as [Hc Hs Hb Hcnt Hd Hsy].
      split.
      * intros c Hc'. destruct (Hc c Hc'). rewrite !Hold by lia. split; [lia|done].
      * intros s Hs'. destruct (Hs s Hs'). rewrite !Hold by lia. done.
      * intros b Hb'. destruct (Hb b Hb'). rewrite !Hold by lia. split; [lia|done].
      * done.
      * rewrite Hold by lia; lia.
      * done.
    + rewrite <- Hq. destruct (lookup_lt_is_Some_2 _ _ Hp) as [n Hn].
      destruct (Hall _ _ Hn) as [Hc Hs Hb Hcnt Hd Hsy].
      split; cbn [child_ next_ backoff_ count_ symbol_ setChild].
      * done.
      * rewrite Hn. cbn. intros s Hs'. destruct (Hc s Hs').
        rewrite Hnew, Hold by lia. split; [lia|done].
      * done.
      * done.
      * rewrite Hnew. lia.
      * done.
Qed.

Lemma wfNode_length d sz h h' p n :
  length h = length h' → wfNode d sz h p n → wfNode d sz h' p n.
Proof. intros E [Hc Hs Hb Hcnt Hd Hsy]. split; rewrite <- ?E; done. Qed.

Lemma wfTrie_alter d sz h q f :
  wfTrie d sz h →
  (∀ n, h !! q = Some n → wfNode d sz h q (f n)) →
  wfTrie d sz (alter f q h).
Proof.
  intros (Hroot & Hlen & Hall) Hq. split_and!; [done|by rewrite length_alter|].
  intros x m E. apply wfNode_length with (h := h); [by rewrite length_alter|].
  destruct (decide (x = q)) as [->|Hx].
  - rewrite list_lookup_alter_eq in E. destruct (h !! q) as [n|] eqn:Hn; [|done].
    injection E as <-. by apply Hq.
  - rewrite list_lookup_alter_ne in E by done. by apply Hall.
Qed.

Lemma wfTrie_incCount d sz h r : wfTrie d sz h → wfTrie d sz (alter incCount r h).
Proof.
  intros Hwf. apply wfTrie_alter; [done|]. intros n Hn.
  destruct (wfTrie_node _ _ _ Hwf _ _ Hn) as [Hc Hs Hb Hcnt Hd Hsy].
  split; cbn; [done..|lia|done|done].
Qed.

Lemma wfTrie_linkBackoff d sz h q r :
  wfTrie d sz h → r < length h → S (d r) = d q →
  wfTrie d sz (alter (setBackoff (Some r)) q h).
Proof.
  intros Hwf Hr Hd. apply wfTrie_alter; [done|]. intros n Hn.
  destruct (wfTrie_node _ _ _ Hwf _ _ Hn) as [Hc Hs Hb Hcnt Hdp Hsy].
  split; cbn; [done|done| |done..]. by intros b [= <-].
Qed.

Lemma grows_incCount d p h r :
  d r = S (d p) → grows d p h (alter incCount r h).
Proof.
  intros Hr q n Hn. destruct (decide (q = r)) as [->|Hq].
  - exists (incCount n). rewrite list_lookup_alter_eq, Hn. cbn.
    split_and!; [done..|lia|done|lia].
  - exists n. rewrite list_lookup_alter_ne by done.
    split_and!; [done..|lia|done|done].
Qed.

Lemma grows_linkChild d st p symbol :
  p < length (nodes st) → grows d p (nodes st) (nodes (linkChild st p symbol)).
Proof.
  intros Hp q n Hn. pose proof (lookup_lt_Some _ _ _ Hn) as Hq.
  rewrite nodes_linkChild. destruct (decide (q = p)) as [->|Hne].
  - exists (setChild (Some (length (nodes st))) n).
    rewrite list_lookup_alter_eq, lookup_app_l, Hn by done. cbn.
    split_and!; [done..|lia|lia|done].
  - exists n. rewrite list_lookup_alter_ne, lookup_app_l by done.
    split_and!; [done..|lia|done|done].
Qed.

Lemma grows_length d p h h' : grows d p h h' → length h ≤ length h'.
Proof.
  intros Hg. destruct (decide (length h ≤ length h')) as [|Hn]; [done|].
  exfalso. assert (Hlt : length h' < length h) by lia.
  destruct (lookup_lt_is_Some_2 h (length h') Hlt) as [n Hn'].
  destruct (Hg _ _ Hn') as (n' & E & _).
  apply lookup_lt_Some in E. lia.
Qed.

(** A growth below [p] after a growth at [p]. *)
Lemma grows_trans d d1 p b h h1 h2 :
  grows d p h h1 → grows d1 b h1 h2 →
  (∀ x, x < length h → d1 x = d x) → b < length h → d b ≤ d p →
  grows d p h h2.
Proof.
  intros H1 H2 Hd Hb Hle q n Hn. pose proof (lookup_lt_Some _ _ _ Hn) as Hq.
  destruct (H1 _ _ Hn) as (n1 & Hn1 & Es & Ex & Eb & Ec & Ech & Eco).
  destruct (H2 _ _ Hn1) as (n2 & Hn2 & Es2 & Ex2 & Eb2 & Ec2 & Ech2 & Eco2).
  exists n2. split_and!; [done|congruence|congruence|congruence|lia| |].
  - intros Hlt. rewrite Ech2, Ech; [done|lia|]. rewrite !Hd by done. lia.
  - intros Hlt. rewrite Eco2, Eco; [done|lia|]. rewrite !Hd by done. lia.
Qed.

Lemma grows_alter_new d p h h' q f :
  grows d p h h' → length h ≤ q → grows d p h (alter f q h').
Proof.
  intros Hg Hq x n Hn. pose proof (lookup_lt_Some _ _ _ Hn) as Hx.
  destruct (Hg _ _ Hn) as (n' & Hn' & Hrest). exists n'.
  rewrite list_lookup_alter_ne by lia. done.
Qed.

Lemma grows_sameLinks d p h h' : grows d p h h' → sameLinks h h'.
Proof.
  intros Hg q n Hn. destruct (Hg _ _ Hn) as (n' & ? & ? & ? & _). eauto.
Qed.

Lemma complete_linkChild d k st p symbol :
  complete d k (nodes st) → p < length (nodes st) → k ≤ d p →
  complete (extend d (length (nodes st)) (S (d p))) k (nodes (linkChild st p symbol)).
Proof.
  intros Hc Hp Hk x m E Hx Hd.
  destruct (lookup_linkChild _ _ _ _ _ Hp E)
    as [(-> & n & Hn & ->)|[(Hne & Hm)|(-> & ->)]].
  - rewrite extend_old in Hd by lia. cbn. by eapply Hc.
  - pose proof (lookup_lt_Some _ _ _ Hm). rewrite extend_old in Hd by lia.
    by eapply Hc.
  - rewrite extend_new in Hd. lia.
Qed.

Lemma findChildWithSymbol_frame h h' p symbol r :
  sameLinks h h' → length h ≤ length h' →
  (∀ n, h !! p = Some n → ∃ n', h' !! p = Some n' ∧ child_ n' = child_ n) →
  findChildWithSymbol h p symbol = Ok r →
  findChildWithSymbol h' p symbol = Ok r.
Proof.
  intros Hl Hlen Hch. unfold findChildWithSymbol.
  destruct (lookupNode h p) as [n| | |] eqn:Hn; try done. cbn.
  apply lookupNode_inv in Hn. destruct (Hch _ Hn) as (n' & Hn' & Ec).
  rewrite (lookupNode_Ok _ _ _ Hn'). cbn. rewrite Ec.
  by apply findChildLoop_frame.
Qed.

Lemma findChildWithSymbol_first h p symbol n q m :
  h !! p = Some n → child_ n = Some q → h !! q = Some m → symbol_ m = symbol →
  findChildWithSymbol h p symbol = Ok (Some q).
Proof.
  intros Hn Hc Hm Hs. unfold findChildWithSymbol.
  rewrite (lookupNode_Ok _ _ _ Hn). cbn. rewrite Hc.
  pose proof (lookup_lt_Some _ _ _ Hm) as Hlt.
  destruct (length h) as [|k]; [lia|]. cbn.
  rewrite (lookupNode_Ok _ _ _ Hm). cbn. by rewrite Hs, Z.eqb_refl.
Qed.

Lemma sameFrame_refl st : sameFrame st st.
Proof. by repeat split. Qed.

Lemma sameFrame_trans st1 st2 st3 :
  sameFrame st1 st2 → sameFrame st2 st3 → sameFrame st1 st3.
Proof.
  intros (?&?&?&?&?) (?&?&?&?&?). repeat split; congruence.
Qed.

Lemma sameFrame_setNodes st h : sameFrame st (setNodes st h).
Proof. by repeat split. Qed.

Lemma sameFrame_linkChild st p symbol : sameFrame st (linkChild st p symbol).
Proof. by repeat split. Qed.

Lemma links_incCount (h : list Node) r q n :
  h !! q = Some n →
  ∃ n', alter incCount r h !! q = Some n' ∧ child_ n' = child_ n.
Proof.
  intros Hn. destruct (decide (q = r)) as [->|Hq].
  - exists (incCount n). by rewrite list_lookup_alter_eq, Hn.
  - exists n. by rewrite list_lookup_alter_ne.
Qed.

Lemma nodes_linkBackoff st q r :
  nodes (linkBackoff st q r) = alter (setBackoff (Some r)) q (nodes st).
Proof. done. Qed.

(** Closing a growth: the new node [q] gets its backoff link [r]. *)
Lemma grown_linkBackoff st st2 d d2 p symbol r :
  let q := length (nodes st) in
  wfTrie d2 (size (vocab_ st)) (nodes st2) →
  (∀ x, x < q → d2 x = d x) → d2 q = S (d p) →
  grows d p (nodes st) (nodes st2) →
  (∃ n, nodes st2 !! p = Some n ∧ child_ n = Some q) →
  (∃ m, nodes st2 !! q = Some m ∧ symbol_ m = symbol) →
  (∀ x n, S q ≤ x → nodes st2 !! x = Some n → backoff_ n ≠ None) →
  r < length (nodes st2) → S (d2 r) = d2 q → p < q →
  sameFrame st st2 →
  grown st d p symbol q (linkBackoff st2 q r) d2.
Proof.
  intros q Hwf Hd Hdq Hg (n & Hn & Hc) (m & Hm & Hs) Hnew Hr Hdr Hp Hf.
  pose proof (lookup_lt_Some _ _ _ Hm) as Hq.
  unfold grown. rewrite nodes_linkBackoff, length_alter.
  split_and!; [by apply wfTrie_linkBackoff|done|by apply grows_alter_new| |
               |done|done|done].
  - intros x k Hx Hk. destruct (decide (x = q)) as [->|Hne].
    + rewrite list_lookup_alter_eq, Hm in Hk. by injection Hk as <-.
    + rewrite list_lookup_alter_ne in Hk by done. apply (Hnew x); [lia|done].
  - eapply findChildWithSymbol_first with (m := setBackoff (Some r) m).
    + rewrite list_lookup_alter_ne by lia. exact Hn.
    + done.
    + by rewrite list_lookup_alter_eq, Hm.
    + done.
Qed.

Lemma addSymbolToNode_spec fuel : ∀ st p d symbol,
  wfTrie d (size (vocab_ st)) (nodes st) →
  complete d (d p) (nodes st) →
  (0 < symbol < size (vocab_ st))%Z →
  p < length (nodes st) → d p < fuel →
  ∃ r st' d',
    addSymbolToNode_ fuel p symbol st = (Ok r, st') ∧ grown st d p symbol r st' d'.
Proof.
  induction fuel as [|f IH]; intros st p d symbol Hwf Hcomp Hsym Hp Hfuel; [lia|].
  destruct (findChildWithSymbol_total _ _ _ Hwf p symbol Hp) as (res & E & Hres).
  destruct res as [r|].
  - (* the child exists *)
    destruct (Hres r eq_refl) as (Hr & Hdr & nr & Hnr & Hsr).
    rewrite (addSymbolToNode_found _ _ _ _ _ E Hr).
    exists r, (setNodes st (alter incCount r (nodes st))), d. unfold grown. cbn.
    split_and!; [done|by apply wfTrie_incCount|done|by apply grows_incCount| |
                 |done|by rewrite length_alter|apply sameFrame_setNodes].
    + intros x n Hx Hn. apply lookup_lt_Some in Hn. rewrite length_alter in Hn. lia.
    + eapply findChildWithSymbol_frame; [| | |exact E].
      * by eapply grows_sameLinks, (grows_incCount d p).
      * by rewrite length_alter.
      * intros n Hn. by apply links_incCount.
  - (* a new child *)
    rewrite (addSymbolToNode_fresh _ _ _ _ E).
    set (q := length (nodes st)). set (st1 := linkChild st p symbol).
    set (d1 := extend d q (S (d p))).
    destruct (lookup_lt_is_Some_2 _ _ Hp) as [n Hn].
    assert (Hwf1 : wfTrie d1 (size (vocab_ st)) (nodes st1))
      by (by apply wfTrie_linkChild).
    assert (Hlen1 : length (nodes st1) = S q) by apply length_linkChild.
    assert (Hp1 : nodes st1 !! p = Some (setChild (Some q) n)).
    { unfold st1. rewrite nodes_linkChild, list_lookup_alter_eq, lookup_app_l, Hn by done.
      done. }
    assert (Hq1 : ∃ m, nodes st1 !! q = Some m ∧ symbol_ m = symbol).
    { eexists. unfold st1. rewrite nodes_linkChild, list_lookup_alter_ne by (unfold q; lia).
      rewrite lookup_app_r by done. fold q. rewrite Nat.sub_diag. done. }
    assert (Hold : ∀ x, x < q → d1 x = d x) by (intros; apply extend_old; lia).
    assert (Hdq : d1 q = S (d p)) by apply extend_new.
    destruct (decide (p = root_)) as [->|Hnr].
    + (* under the root *)
      mstep ltac:(apply updNode_Ok; lia).
      exists q, (linkBackoff st1 q root_), d1. split; [done|].
      destruct Hwf as (Hroot & Hlen & _).
      apply grown_linkBackoff; fold q;
        [done|done|done|by apply grows_linkChild|by eexists|done| |lia| |done
        |apply sameFrame_linkChild].
      * intros x k Hx Hk. apply lookup_lt_Some in Hk. lia.
      * rewrite Hdq, Hold by done. by rewrite Hroot.
    + (* under an inner node *)
      mstep ltac:(by apply loadNode_Ok).
      destruct (backoff_ n) as [b|] eqn:Hb; [|by destruct (Hcomp _ _ Hn Hnr)].
      cbn [backoff_ setChild]. rewrite Hb.
      destruct (wf_backoff _ _ _ _ _ (wfTrie_node _ _ _ Hwf _ _ Hn) b Hb) as [Hblt Hdb].
      mstep ltac:(by rewrite bool_decide_eq_true_2).
      mstep ltac:(done).
      destruct (IH st1 b d1 symbol) as (r & st2 & d2 & Er & Hgrown);
        [done| |done|lia|rewrite Hold by done; lia|].
      { replace (d1 b) with (d b) by (by rewrite Hold).
        apply complete_linkChild; [|done|lia].
        intros x k Hx Hx0 Hdx. eapply Hcomp; [done..|lia]. }
      destruct Hgrown as (Hwf2 & Hd2 & Hg2 & Hnew2 & Hfind2 & Hdr & Hr & Hf2).
      pose proof (grows_length _ _ _ _ Hg2) as Hlen2.
      mstep ltac:(exact Er).
      mstep ltac:(apply updNode_Ok; lia).
      exists q, (linkBackoff st2 q r), d2. split; [done|].
      destruct (Hg2 _ _ Hp1) as (n2 & Hn2 & _ & _ & _ & _ & Hch2 & _).
      destruct Hq1 as (m & Hm & Hsm).
      destruct (Hg2 _ _ Hm) as (m2 & Hm2 & Hsm2 & _).
      apply grown_linkBackoff; fold q.
      * done.
      * intros x Hx. rewrite Hd2 by lia. by apply Hold.
      * rewrite Hd2 by lia. done.
      * eapply grows_trans; [by apply grows_linkChild|exact Hg2| |done|lia].
        intros x Hx. by apply Hold.
      * exists n2. split; [done|]. rewrite Hch2; [done|]. rewrite !Hold by done. lia.
      * exists m2. split; [done|congruence].
      * intros x k Hx Hk. apply (Hnew2 x); [lia|done].
      * done.
      * rewrite Hdr, (Hd2 q), Hdq, Hold by lia. lia.
      * done.
      * eapply sameFrame_trans; [apply sameFrame_linkChild|done].
Qed.

(** ** Calls that only read the trie *)

Lemma sameTrie_refl st : sameTrie st st.
Proof. by repeat split. Qed.

Lemma sameTrie_trans st1 st2 st3 :
  sameTrie st1 st2 → sameTrie st2 st3 → sameTrie st1 st3.
Proof. intros (?&?&?&?&?&?) (?&?&?&?&?&?). repeat split; congruence. Qed.

Lemma readsTrie_ret {A} (a : A) : readsTrie (mret a : M A).
Proof. intros st. apply sameTrie_refl. Qed.

Lemma readsTrie_bind {A B} (m : M A) (k : A → M B) :
  readsTrie m → (∀ a, readsTrie (k a)) → readsTrie (m ≫= k).
Proof.
  intros Hm Hk st. specialize (Hm st).
  unfold mbind, M_bind, bind. destruct (m st) as [[a|e| |] st1]; cbn in *; try done.
  eapply sameTrie_trans; [done|apply Hk].
Qed.

Lemma readsTrie_reading {A} (f : PPMLanguageModel → Outcome A) : readsTrie (reading f).
Proof. intros st. apply sameTrie_refl. Qed.

Lemma readsTrie_throw {A} e : readsTrie (throw e : M A).
Proof. intros st. apply sameTrie_refl. Qed.

Lemma readsTrie_outOfFuel {A} : readsTrie (outOfFuel : M A).
Proof. intros st. apply sameTrie_refl. Qed.

Lemma readsTrie_assert b e : readsTrie (assert b e).
Proof. destruct b; [apply readsTrie_ret|apply readsTrie_throw]. Qed.

Lemma readsTrie_deref p : readsTrie (deref p).
Proof. destruct p; [apply readsTrie_ret|apply readsTrie_throw]. Qed.

Lemma readsTrie_updContext c f : readsTrie (updContext c f).
Proof.
  intros st. unfold updContext. destruct (contexts st !! c); by repeat split.
Qed.

Lemma readsTrie_allocContext x : readsTrie (allocContext x).
Proof. intros st. by repeat split. Qed.

Lemma readsTrie_withBudget {A} (f : nat → M A) :
  (∀ fuel, readsTrie (f fuel)) → readsTrie (withBudget f).
Proof. intros H st. apply H. Qed.

Create HintDb reads.

#[local] Hint Resolve readsTrie_ret readsTrie_reading readsTrie_throw
  readsTrie_outOfFuel readsTrie_assert readsTrie_deref readsTrie_updContext
  readsTrie_allocContext : reads.

Ltac reads :=
  repeat first
    [ apply readsTrie_bind; [|intros ?]
    | apply readsTrie_withBudget; intros ?
    | progress eauto with reads
    | match goal with |- readsTrie (match ?x with _ => _ end) => destruct x end
    | match goal with |- readsTrie (if ?b then _ else _) => destruct b end ].

Lemma readsTrie_addSymbolToContextLoop fuel c symbol :
  readsTrie (addSymbolToContextLoop fuel c symbol).
Proof.
  induction fuel as [|f IH]; cbn [addSymbolToContextLoop]; [apply readsTrie_outOfFuel|].
  unfold loadContext, findChildM, loadNode. reads.
Qed.

Lemma readsTrie_addSymbolToContext c symbol : readsTrie (addSymbolToContext c symbol).
Proof.
  unfold addSymbolToContext, loadContext.
  pose proof (λ fuel, readsTrie_addSymbolToContextLoop fuel c symbol). reads.
Qed.

Lemma readsTrie_createContext : readsTrie createContext.
Proof. intros st. by repeat split. Qed.

Lemma readsTrie_cloneContext c : readsTrie (cloneContext c).
Proof. unfold cloneContext, loadContext. reads. Qed.

(** ** Context cursors *)

Lemma setContexts_id st : setContexts st (contexts st) = st.
Proof. by destruct st. Qed.

Lemma withContext_same st c x : contexts st !! c = Some x → withContext st c x = st.
Proof.
  intros E. unfold withContext. rewrite list_insert_id by done. apply setContexts_id.
Qed.

Lemma withContext_twice st c x y :
  withContext (withContext st c x) c y = withContext st c y.
Proof. unfold withContext, setContexts. cbn. by rewrite list_insert_insert_eq. Qed.

Lemma alter_as_insert {A} (f : A → A) (l : list A) i x :
  l !! i = Some x → alter f i l = <[i := f x]> l.
Proof.
  revert i. induction l as [|y l IH]; intros [|i] E; try done.
  - by injection E as ->.
  - cbn in *. f_equal. by apply IH.
Qed.

Lemma updContext_with st c f x :
  contexts st !! c = Some x → updContext c f st = (Ok tt, withContext st c (f x)).
Proof.
  intros E. unfold updContext, withContext. rewrite E.
  by rewrite (alter_as_insert _ _ _ _ E).
Qed.

Lemma lookup_withContext st c x y :
  contexts st !! c = Some y → contexts (withContext st c x) !! c = Some x.
Proof.
  intros E. cbn. apply list_lookup_insert_eq. by eapply lookup_lt_Some.
Qed.

Lemma addSymbolToContextLoop_spec d c symbol fuel : ∀ st x,
  wfTrie d (size (vocab_ st)) (nodes st) →
  contexts st !! c = Some x → looseContext d st fuel x →
  ∃ returned x',
    addSymbolToContextLoop fuel c symbol st = (Ok returned, withContext st c x') ∧
    (order_ x' ≤ maxOrder_ st)%Z ∧
    if returned : bool
    then ∃ hd, head_ x' = Some hd ∧ hd < length (nodes st) ∧ order_ x' = Z.of_nat (d hd)
    else head_ x' = None.
Proof.
  induction fuel as [|f IH]; intros st x Hwf Hx [Hord Hhead].
  { destruct (head_ x) as [hd|]; lia. }
  cbn [addSymbolToContextLoop].
  mstep ltac:(by apply loadContext_Ok).
  destruct (head_ x) as [hd|] eqn:Hhd.
  2:{ exists false, x. by rewrite (withContext_same _ _ _ Hx). }
  destruct Hhead as (Hlt & Hdepth & Hfuel).
  mstep ltac:(exact eq_refl).
  assert (Hfind : ∃ res,
    (if (order_ x <? maxOrder_ st)%Z then findChildM hd symbol else mret None) st
    = (Ok res, st) ∧
    ∀ ch, res = Some ch →
          (order_ x < maxOrder_ st)%Z ∧ ch < length (nodes st) ∧ d ch = S (d hd)).
  { destruct (Z.ltb_spec (order_ x) (maxOrder_ st)) as [Hl|Hl].
    - destruct (findChildWithSymbol_total _ _ _ Hwf hd symbol Hlt) as (res & E & Hres).
      exists res. rewrite findChildM_eq, E. split; [done|].
      intros ch ->. destruct (Hres ch eq_refl) as (? & ? & _). done.
    - exists None. done. }
  destruct Hfind as (res & E & Hres). mstep ltac:(exact E).
  destruct res as [ch|].
  - destruct (Hres ch eq_refl) as (Hl & Hch & Hdch).
    mstep ltac:(by apply updContext_with).
    mstep ltac:(eapply updContext_with, lookup_withContext, Hx).
    rewrite withContext_twice. cbn.
    exists true, (mkContext (Some ch) (order_ x + 1)). cbn.
    split_and!; [done|lia|]. exists ch. split_and!; [done|done|lia].
  - mstep ltac:(by apply updContext_with).
    mstep ltac:(eapply loadContext_Ok, lookup_withContext, Hx).
    cbn [head_ setOrder]. rewrite Hhd.
    mstep ltac:(exact eq_refl).
    destruct (lookup_lt_is_Some_2 _ _ Hlt) as [n Hn].
    mstep ltac:(by apply loadNode_Ok).
    mstep ltac:(eapply updContext_with, lookup_withContext, Hx).
    rewrite withContext_twice. cbn [setHead setOrder order_ head_].
    set (x1 := mkContext (backoff_ n) (order_ x - 1)).
    destruct (IH (withContext st c x1) x1) as (returned & x' & Eloop & Hord' & Hret).
    + done.
    + by eapply lookup_withContext.
    + split; cbn; [lia|].
      destruct (backoff_ n) as [b|] eqn:Hb; [|lia].
      destruct (wf_backoff _ _ _ _ _ (wfTrie_node _ _ _ Hwf _ _ Hn) b Hb) as [Hblt Hdb].
      split_and!; [done|lia|lia].
    + rewrite withContext_twice in Eloop. by exists returned, x'.
Qed.

Lemma wfContext_budget d st x :
  wfTrie d (size (vocab_ st)) (nodes st) → wfContext d st x →
  looseContext d st (budget st) x.
Proof.
  intros Hwf (hd & Hhd & Hlt & Hord & Hmax). split; [done|]. rewrite Hhd.
  destruct (lookup_lt_is_Some_2 _ _ Hlt) as [n Hn].
  pose proof (wf_depth _ _ _ _ _ (wfTrie_node _ _ _ Hwf _ _ Hn)).
  unfold budget. split_and!; [done|done|lia].
Qed.

Lemma addSymbolToContext_spec d st c x symbol :
  wfModel d st → contexts st !! c = Some x →
  (0 < symbol < size (vocab_ st))%Z →
  ∃ x', addSymbolToContext c symbol st = (Ok tt, withContext st c x') ∧
        wfContext d st x'.
Proof.
  intros (Hwf & Hcomp & Hsz & Hmax & Hroot & Hctx) Hx Hsym.
  unfold addSymbolToContext, rootSymbol.
  destruct (Z.leb_spec symbol 0) as [|_]; [lia|].
  mstep ltac:(exact eq_refl).
  destruct (Z.ltb_spec symbol (size (vocab_ st))) as [_|]; [|lia].
  mstep ltac:(exact eq_refl).
  destruct (addSymbolToContextLoop_spec d c symbol (budget st) st x)
    as (returned & x' & Eloop & Hord & Hret);
    [done|done|by apply wfContext_budget, Hctx with c|].
  mstep ltac:(exact Eloop).
  destruct returned.
  - destruct Hret as (hd & Hhd & Hlt & Hdep).
    exists x'. split; [done|]. by exists hd.
  - mstep ltac:(eapply loadContext_Ok, lookup_withContext, Hx).
    rewrite Hret.
    mstep ltac:(eapply updContext_with, lookup_withContext, Hx).
    erewrite updContext_with by (rewrite withContext_twice; eapply lookup_withContext, Hx).
    rewrite !withContext_twice. cbn.
    exists (mkContext (Some root_) 0). split; [done|].
    exists root_. destruct Hwf as (Hd0 & Hlen & _). cbn.
    split_and!; [done|done| |done]. by rewrite Hd0.
Qed.

Lemma backoffLoop_spec d c fuel : ∀ st x hd,
  wfTrie d (size (vocab_ st)) (nodes st) →
  (∀ k, complete d k (nodes st)) → (0 ≤ maxOrder_ st)%Z →
  contexts st !! c = Some x →
  head_ x = Some hd → hd < length (nodes st) → order_ x = Z.of_nat (d hd) →
  d hd < fuel →
  ∃ x', backoffLoop fuel c st = (Ok tt, withContext st c x') ∧ wfContext d st x'.
Proof.
  induction fuel as [|f IH]; intros st x hd Hwf Hcomp Hmax Hx Hhd Hlt Hord Hfuel; [lia|].
  cbn [backoffLoop].
  mstep ltac:(by apply loadContext_Ok).
  mstep ltac:(exact eq_refl).
  destruct (Z.gtb_spec (order_ x) (maxOrder_ st)) as [Hgt|Hle].
  - rewrite Hhd. mstep ltac:(exact eq_refl).
    destruct (lookup_lt_is_Some_2 _ _ Hlt) as [n Hn].
    mstep ltac:(by apply loadNode_Ok).
    assert (Hnr : hd ≠ root_).
    { intros ->. destruct Hwf as (Hd0 & _). rewrite Hd0 in Hord. lia. }
    destruct (backoff_ n) as [b|] eqn:Hb; [|by destruct (Hcomp (d hd) _ _ Hn Hnr)].
    destruct (wf_backoff _ _ _ _ _ (wfTrie_node _ _ _ Hwf _ _ Hn) b Hb) as [Hblt Hdb].
    mstep ltac:(by apply updContext_with).
    mstep ltac:(eapply updContext_with, lookup_withContext, Hx).
    rewrite withContext_twice. cbn [setHead setOrder order_ head_].
    set (x1 := mkContext (Some b) (order_ x - 1)).
    destruct (IH (withContext st c x1) x1 b) as (x' & Eloop & Hx');
      [done|done|done|by eapply lookup_withContext|done|done|cbn; lia|lia|].
    rewrite withContext_twice in Eloop. exists x'. split; [done|].
    destruct Hx' as (hd' & ? & ? & ? & ?). by exists hd'.
  - exists x. rewrite (withContext_same _ _ _ Hx). split; [done|].
    exists hd. split_and!; [done|done|done|lia].
Qed.

Lemma wfContext_mono d d' st st' x :
  wfContext d st x →
  length (nodes st) ≤ length (nodes st') → maxOrder_ st' = maxOrder_ st →
  (∀ y, y < length (nodes st) → d' y = d y) →
  wfContext d' st' x.
Proof.
  intros (hd & Hhd & Hlt & Hord & Hmax) Hlen Hmo Hd.
  exists hd. rewrite Hmo, Hd by done. split_and!; [done|lia|done|done].
Qed.

Lemma wfModel_withContext d st c x :
  wfModel d st → wfContext d st x → wfModel d (withContext st c x).
Proof.
  intros (Hwf & Hcomp & Hsz & Hmax & Hroot & Hctx) Hx.
  split_and!; [done..|]. intros c' y. cbn. intros E.
  apply wfContext_mono with (d := d) (st := st); [|done..].
  destruct (decide (c' = c)) as [->|Hne].
  - destruct (decide (c < length (contexts st))) as [Hlt|Hge].
    + rewrite list_lookup_insert_eq in E by done. by injection E as <-.
    + rewrite list_insert_ge in E by lia. by apply Hctx with c.
  - rewrite list_lookup_insert_ne in E by done. by apply Hctx with c'.
Qed.

Lemma complete_grown d st p symbol r st' d' :
  (∀ k, complete d k (nodes st)) → grown st d p symbol r st' d' →
  ∀ k, complete d' k (nodes st').
Proof.
  intros Hcomp (_ & _ & Hg & Hnew & _) k x n Hn Hx0 _.
  destruct (decide (x < length (nodes st))) as [Hlt|Hge].
  - destruct (lookup_lt_is_Some_2 _ _ Hlt) as [n0 Hn0].
    destruct (Hg _ _ Hn0) as (n' & Hn' & _ & _ & Hb & _).
    assert (n' = n) as -> by congruence. rewrite Hb.
    by apply (Hcomp (d x) x).
  - apply (Hnew x); [lia|done].
Qed.

Lemma wfModel_grown d st p symbol r st' d' :
  wfModel d st → grown st d p symbol r st' d' → wfModel d' st'.
Proof.
  intros Hm Hg. pose proof Hm as (Hwf & Hcomp & Hsz & Hmax & Hroot & Hctx).
  pose proof Hg as (Hwf' & Hd' & Hgr & Hnew & _ & _ & _ & Hf).
  destruct Hf as (Hv & Hmo & Hrc & Hue & Hcs).
  split_and!; rewrite ?Hv, ?Hmo, ?Hrc; [done|by eapply complete_grown|done..|].
  intros c x. rewrite Hcs. intros E.
  eapply wfContext_mono; [by eapply Hctx|by eapply grows_length|done|done].
Qed.

Lemma growNode_eq node symbol st :
  growNode node symbol st = addSymbolToNode_ (budget st) node symbol st.
Proof. done. Qed.

Lemma growNode_spec d st p symbol :
  wfModel d st → p < length (nodes st) → (0 < symbol < size (vocab_ st))%Z →
  ∃ r st' d', growNode p symbol st = (Ok r, st') ∧ grown st d p symbol r st' d'.
Proof.
  intros (Hwf & Hcomp & _) Hp Hsym. rewrite growNode_eq.
  apply addSymbolToNode_spec; [done|done|done|done|].
  destruct (lookup_lt_is_Some_2 _ _ Hp) as [n Hn].
  pose proof (wf_depth _ _ _ _ _ (wfTrie_node _ _ _ Hwf _ _ Hn)).
  unfold budget. lia.
Qed.

Lemma addSymbolAndUpdate_spec d st c x symbol :
  wfModel d st → contexts st !! c = Some x →
  (0 < symbol < size (vocab_ st))%Z →
  ∃ hd r st1 d' x',
    head_ x = Some hd ∧
    growNode hd symbol st = (Ok r, st1) ∧ grown st d hd symbol r st1 d' ∧
    addSymbolAndUpdate c symbol st = (Ok tt, withContext st1 c x') ∧
    wfContext d' st1 x' ∧ wfModel d' (withContext st1 c x').
Proof.
  intros Hm Hx Hsym. pose proof Hm as (Hwf & Hcomp & Hsz & Hmax & Hroot & Hctx).
  destruct (Hctx _ _ Hx) as (hd & Hhd & Hlt & Hord & Hle).
  destruct (growNode_spec d st hd symbol Hm Hlt Hsym) as (r & st1 & d' & Eg & Hg).
  pose proof (wfModel_grown _ _ _ _ _ _ _ Hm Hg) as Hm1.
  pose proof Hm1 as (Hwf1 & Hcomp1 & Hsz1 & Hmax1 & Hroot1 & Hctx1).
  pose proof Hg as (_ & Hd' & Hgr & _ & Hfind & Hdr & Hr & Hf).
  destruct Hf as (Hv & Hmo & Hrc & Hue & Hcs).
  assert (Hx1 : contexts st1 !! c = Some x) by (by rewrite Hcs).
  set (x1 := mkContext (Some r) (order_ x + 1)).
  destruct (backoffLoop_spec d' c (budget (withContext st1 c x1))
              (withContext st1 c x1) x1 r) as (x' & Eloop & Hx');
    [done|done|done|by eapply lookup_withContext|done|done| | |].
  { cbn. rewrite Hdr, Hord. lia. }
  { destruct (lookup_lt_is_Some_2 _ _ Hr) as [n Hn].
    pose proof (wf_depth _ _ _ _ _ (wfTrie_node _ _ _ Hwf1 _ _ Hn)).
    unfold budget. cbn. lia. }
  rewrite withContext_twice in Eloop.
  exists hd, r, st1, d', x'. split_and!; [done|done|done| | |].
  - unfold addSymbolAndUpdate, rootSymbol.
    destruct (Z.leb_spec symbol 0) as [|_]; [lia|].
    mstep ltac:(exact eq_refl).
    destruct (Z.ltb_spec symbol (size (vocab_ st))) as [_|]; [|lia].
    mstep ltac:(exact eq_refl).
    mstep ltac:(by apply loadContext_Ok).
    rewrite Hhd. mstep ltac:(exact eq_refl).
    mstep ltac:(exact Eg).
    mstep ltac:(by apply loadContext_Ok).
    rewrite Hhd. mstep ltac:(exact eq_refl).
    mstep ltac:(by rewrite findChildM_eq, Hfind).
    rewrite bool_decide_eq_true_2 by done.
    mstep ltac:(exact eq_refl).
    mstep ltac:(by apply updContext_with).
    mstep ltac:(eapply updContext_with, lookup_withContext, Hx1).
    rewrite withContext_twice. exact Eloop.
  - destruct Hx' as (hd' & ? & ? & ? & ?). by exists hd'.
  - apply wfModel_withContext; [done|].
    destruct Hx' as (hd' & ? & ? & ? & ?). by exists hd'.
Qed.

(** ** Sessions keep the model well formed *)

Lemma wfModel_initModel vocab maxOrder :
  (1 < size vocab)%Z → (0 ≤ maxOrder)%Z →
  wfModel (λ _, 0) (initModel vocab maxOrder).
Proof.
  intros Hsz Hmax. split_and!; try done.
  - split_and!; [done|cbn; lia|]. intros [|p] n E; [|done].
    injection E as <-. split; cbn; try done.
  - intros k [|p] n E; [done|done].
Qed.

(** The constructor asserts a vocabulary of at least two symbols. *)
Lemma newModel_Ok vocab maxOrder :
  newModel vocab maxOrder
  = if decide (1 < size vocab)%Z then Ok (initModel vocab maxOrder)
    else Throw ErrVocabTooSmall.
Proof.
  unfold newModel. destruct (Z.gtb_spec (size vocab) 1); by case_decide; try lia.
Qed.

Lemma bind_not_Ok {A B} (m : M A) (k : A → M B) st st' o :
  m st = (o, st') → (∀ a, o ≠ Ok a) → snd ((m ≫= k) st) = st'.
Proof.
  intros E Ho. unfold mbind, M_bind, bind. rewrite E.
  destruct o; [by destruct (Ho a)|done..].
Qed.

Lemma addSymbolToContext_ignored c symbol st :
  (symbol ≤ 0)%Z → addSymbolToContext c symbol st = (Ok tt, st).
Proof.
  intros H. unfold addSymbolToContext, rootSymbol.
  by destruct (Z.leb_spec symbol 0); [|lia].
Qed.

Lemma addSymbolAndUpdate_ignored c symbol st :
  (symbol ≤ 0)%Z → addSymbolAndUpdate c symbol st = (Ok tt, st).
Proof.
  intros H. unfold addSymbolAndUpdate, rootSymbol.
  by destruct (Z.leb_spec symbol 0); [|lia].
Qed.

Lemma addSymbolToContext_invalid c symbol st :
  (0 < symbol)%Z → (size (vocab_ st) ≤ symbol)%Z →
  addSymbolToContext c symbol st = (Throw (ErrInvalidSymbol symbol), st).
Proof.
  intros H0 H. unfold addSymbolToContext, rootSymbol.
  destruct (Z.leb_spec symbol 0); [lia|].
  mstep ltac:(exact eq_refl).
  by destruct (Z.ltb_spec symbol (size (vocab_ st))); [lia|].
Qed.

Lemma addSymbolAndUpdate_invalid c symbol st :
  (0 < symbol)%Z → (size (vocab_ st) ≤ symbol)%Z →
  addSymbolAndUpdate c symbol st = (Throw (ErrInvalidSymbol symbol), st).
Proof.
  intros H0 H. unfold addSymbolAndUpdate, rootSymbol.
  destruct (Z.leb_spec symbol 0); [lia|].
  mstep ltac:(exact eq_refl).
  by destruct (Z.ltb_spec symbol (size (vocab_ st))); [lia|].
Qed.

Lemma loadContext_None c st :
  contexts st !! c = None → loadContext c st = (OutOfModel, st).
Proof. intros E. unfold loadContext, reading. by rewrite E. Qed.

(** A call on a context that does not exist changes nothing. *)
Lemma addSymbolToContext_no_context c symbol st :
  contexts st !! c = None → snd (addSymbolToContext c symbol st) = st.
Proof.
  intros E. unfold addSymbolToContext.
  destruct (symbol <=? rootSymbol)%Z; [done|].
  mstep ltac:(exact eq_refl).
  destruct (symbol <? size (vocab_ st))%Z; [|done].
  mstep ltac:(exact eq_refl).
  eapply bind_not_Ok with (o := OutOfModel); [|done].
  unfold withBudget, budget. cbn [addSymbolToContextLoop].
  unfold mbind, M_bind, bind. by rewrite (loadContext_None _ _ E).
Qed.

Lemma addSymbolAndUpdate_no_context c symbol st :
  contexts st !! c = None → snd (addSymbolAndUpdate c symbol st) = st.
Proof.
  intros E. unfold addSymbolAndUpdate.
  destruct (symbol <=? rootSymbol)%Z; [done|].
  mstep ltac:(exact eq_refl).
  destruct (symbol <? size (vocab_ st))%Z; [|done].
  mstep ltac:(exact eq_refl).
  eapply bind_not_Ok; [by apply loadContext_None|done].
Qed.

Lemma length_indexOf_le l s : (indexOf l s < Z.of_nat (length l))%Z.
Proof.
  induction l as [|x l IH]; cbn [indexOf length]; [lia|].
  destruct (String.eqb x s); [lia|]. destruct (indexOf l s <? 0)%Z; lia.
Qed.

Lemma size_addSymbol v s : (size v ≤ size (snd (addSymbol v s)))%Z.
Proof.
  unfold addSymbol, size. destruct (negb (includes (symbols_ v) s)); cbn; [|lia].
  rewrite length_app. cbn. lia.
Qed.

Lemma wfTrie_size d sz sz' h : (sz ≤ sz')%Z → wfTrie d sz h → wfTrie d sz' h.
Proof.
  intros Hle (Hd0 & Hlen & Hall). split_and!; [done..|]. intros p n E.
  destruct (Hall _ _ E) as [Hc Hs Hb Hcnt Hd Hsy]. split; [done..|].
  intros Hp. specialize (Hsy Hp). lia.
Qed.

Lemma wfModel_allocContext d st x :
  wfModel d st → wfContext d st x →
  wfModel d (setContexts st (contexts st ++ [x])).
Proof.
  intros (Hwf & Hcomp & Hsz & Hmax & Hroot & Hctx) Hx.
  split_and!; [done..|]. intros c y. cbn. intros E.
  apply wfContext_mono with (d := d) (st := st); [|done..].
  apply lookup_app_Some in E as [E|[_ E]]; [by eapply Hctx|].
  destruct (c - length (contexts st)) as [|k]; [|done]. by injection E as <-.
Qed.

Lemma WF_step st op : WF st → WF (step st op).
Proof.
  intros [d Hm]. pose proof Hm as (Hwf & Hcomp & Hsz & Hmax & Hroot & Hctx).
  destruct op as [|c|c symbol|c symbol|b|s]; cbn [step].
  - (* createContext *)
    exists d. apply wfModel_allocContext; [done|]. rewrite Hroot. cbn.
    exists root_. destruct Hwf as (Hd0 & Hlen & _). rewrite Hd0. done.
  - (* cloneContext *)
    unfold cloneContext. destruct (contexts st !! c) as [x|] eqn:E.
    + erewrite bind_Ok by (by apply loadContext_Ok).
      exists d. apply wfModel_allocContext; [done|].
      destruct (Hctx _ _ E) as (hd & ? & ? & ? & ?). by exists hd.
    + erewrite bind_not_Ok; [|by apply loadContext_None|done]. by exists d.
  - (* addSymbolToContext *)
    destruct (contexts st !! c) as [x|] eqn:E;
      [|rewrite addSymbolToContext_no_context by done; by exists d].
    destruct (Z.le_gt_cases symbol 0);
      [rewrite addSymbolToContext_ignored by done; by exists d|].
    destruct (Z.le_gt_cases (size (vocab_ st)) symbol);
      [rewrite addSymbolToContext_invalid by lia; by exists d|].
    destruct (addSymbolToContext_spec d st c x symbol) as (x' & -> & Hx'); [done|done|lia|].
    exists d. by apply wfModel_withContext.
  - (* addSymbolAndUpdate *)
    destruct (contexts st !! c) as [x|] eqn:E;
      [|rewrite addSymbolAndUpdate_no_context by done; by exists d].
    destruct (Z.le_gt_cases symbol 0);
      [rewrite addSymbolAndUpdate_ignored by done; by exists d|].
    destruct (Z.le_gt_cases (size (vocab_ st)) symbol);
      [rewrite addSymbolAndUpdate_invalid by lia; by exists d|].
    destruct (addSymbolAndUpdate_spec d st c x symbol)
      as (hd & r & st1 & d' & x' & _ & _ & _ & -> & _ & Hm'); [done|done|lia|].
    by exists d'.
  - (* useExclusion_ *)
    by exists d.
  - (* vocab.addSymbol *)
    exists d. pose proof (size_addSymbol (vocab_ st) s).
    split_and!; cbn; [by eapply wfTrie_size|done|lia|done|done|].
    intros c' y E. destruct (Hctx _ _ E) as (hd & ? & ? & ? & ?). by exists hd.
Qed.

Lemma WF_exec ops : ∀ st, WF st → WF (exec st ops).
Proof.
  induction ops as [|op ops IH]; intros st H; [done|].
  cbn. apply IH. by apply WF_step.
Qed.

Lemma WF_session vocab maxOrder ops :
  (1 < size vocab)%Z → (0 ≤ maxOrder)%Z → WF (session vocab maxOrder ops).
Proof.
  intros Hsz Hmax. apply WF_exec. eexists. by apply wfModel_initModel.
Qed.

(** ** Probability estimation in exact arithmetic *)

Section ExactArithmetic.
Local Open Scope Q_scope.

Lemma knAlpha_Q : knAlpha (num := Q) == 49 # 100.
Proof. done. Qed.

Lemma knBeta_Q : knBeta (num := Q) == 77 # 100.
Proof. done. Qed.

Lemma epsilon_Q : epsilon (num := Q) == 1 # 10000000000.
Proof. done. Qed.

Lemma sumQ_cons q l : sumQ (q :: l) = q + sumQ l.
Proof. done. Qed.

Lemma sumQ_alter_add l i p :
  (i < length l)%nat → sumQ (alter (λ q, q + p) i l) == sumQ l + p.
Proof.
  revert i. induction l as [|x l IH]; intros [|i] Hi; cbn in Hi; try lia.
  - cbn. lra.
  - cbn [alter list_alter]. rewrite !sumQ_cons.
    change (list_alter (λ q, q + p) i l) with (alter (λ q, q + p) i l).
    rewrite IH by lia. lra.
Qed.

Lemma tail_alter_S {A} (f : A → A) l i : tail (alter f (S i) l) = alter f i (tail l).
Proof. by destruct l. Qed.

Lemma length_tail_lt {A} (l : list A) i :
  (0 < i)%nat → (i < length l)%nat → (i - 1 < length (tail l))%nat.
Proof. destruct l; cbn; lia. Qed.

Lemma sumQ_tail_alter_add l i p :
  (0 < i)%nat → (i < length l)%nat →
  sumQ (tail (alter (λ q, q + p) i l)) == sumQ (tail l) + p.
Proof.
  intros H0 Hi. destruct i as [|i]; [lia|].
  rewrite tail_alter_S. apply sumQ_alter_add.
  destruct l; cbn in *; lia.
Qed.

Lemma Forall_alter_add l i p :
  Forall (Qle 0) l → 0 <= p → Forall (Qle 0) (alter (λ q, q + p) i l).
Proof.
  intros Hl Hp. revert i. induction Hl as [|x l Hx Hl IH]; intros [|i]; cbn.
  - constructor.
  - constructor.
  - constructor; [lra|done].
  - constructor; [done|apply IH].
Qed.
End ExactArithmetic.

(** ** Exclusion masks and child counts *)

Lemma maskLe_refl m : maskLe m m.
Proof. by intros i. Qed.

Lemma maskLe_trans m1 m2 m3 : maskLe m1 m2 → maskLe m2 m3 → maskLe m1 m3.
Proof. intros H1 H2 i Hi. by apply H2, H1. Qed.

Lemma maskLe_set m (s : nat) : maskLe m (option_map (λ l, <[s := true]> l) m).
Proof.
  intros i. destruct m as [l|]; cbn; [|done].
  destruct (i <? 0)%Z; [done|].
  destruct (l !! Z.to_nat i) as [b|] eqn:E; cbn; [|done]. intros ->.
  destruct (decide (s = Z.to_nat i)) as [->|Hne].
  - rewrite list_lookup_insert_eq; [done|]. by eapply lookup_lt_Some.
  - rewrite list_lookup_insert_ne by done. by rewrite E.
Qed.

Section ChildCounts.
Context (d : nat → nat) (sz : Z) (h : list Node).
Hypothesis Hwf : wfTrie d sz h.

(** The count handed in is added to the sum over the siblings. *)
Lemma totalChildrenLoop_acc fuel m : ∀ current count,
  totalChildrenLoop fuel h m current count
  = t ← totalChildrenLoop fuel h m current 0%Z; Ok (count + t)%Z.
Proof.
  induction fuel as [|f IH]; intros [c|] count; cbn; try done.
  - by rewrite Z.add_0_r.
  - destruct (lookupNode h c) as [n| | |]; cbn; try done.
    rewrite IH. rewrite (IH _ (if negb _ then _ else _)).
    destruct (totalChildrenLoop f h m (next_ n) 0) as [t| | |]; cbn; try done.
    f_equal. destruct (negb (maskAt m (symbol_ n))); lia.
  - by rewrite Z.add_0_r.
Qed.

(** The sum is defined, is not negative, and shrinks when more symbols are
    excluded. *)
Lemma totalChildrenLoop_total fuel m : ∀ c,
  c < length h → c < fuel →
  ∃ t, totalChildrenLoop fuel h m (Some c) 0%Z = Ok t ∧ (0 ≤ t)%Z ∧
       ∀ m', maskLe m m' →
             ∃ t', totalChildrenLoop fuel h m' (Some c) 0%Z = Ok t' ∧ (0 ≤ t' ≤ t)%Z.
Proof using Hwf.
  induction fuel as [|f IH]; intros c Hc Hf; [lia|].
  destruct (lookup_lt_is_Some_2 _ _ Hc) as [n Hn].
  pose proof (wfTrie_node _ _ _ Hwf _ _ Hn) as [_ Hs _ Hcnt _ _].
  cbn. rewrite (lookupNode_Ok _ _ _ Hn). cbn.
  assert (Hrest : ∃ t, totalChildrenLoop f h m (next_ n) 0%Z = Ok t ∧ (0 ≤ t)%Z ∧
            ∀ m', maskLe m m' →
              ∃ t', totalChildrenLoop f h m' (next_ n) 0%Z = Ok t' ∧ (0 ≤ t' ≤ t)%Z).
  { destruct (next_ n) as [s|] eqn:Hnext.
    - destruct (Hs s eq_refl). apply IH; lia.
    - exists 0%Z. split_and!; [by destruct f|done|]. intros m' _. exists 0%Z.
      split; [by destruct f|lia]. }
  destruct Hrest as (t & Et & Ht & Hmono).
  rewrite totalChildrenLoop_acc, Et. cbn.
  eexists; split_and!; [done|destruct (negb _); lia|].
  intros m' Hle. destruct (Hmono m' Hle) as (t' & Et' & Ht').
  rewrite totalChildrenLoop_acc, Et'. cbn. eexists; split; [done|].
  destruct (maskAt m (symbol_ n)) eqn:Em; cbn.
  - rewrite (Hle _ Em). cbn. lia.
  - destruct (negb (maskAt m' (symbol_ n))); lia.
Qed.

Lemma totalChildrenCounts_total m p :
  p < length h →
  ∃ t, totalChildrenCounts h p m = Ok t ∧ (0 ≤ t)%Z.
Proof using Hwf.
  intros Hp. destruct (lookup_lt_is_Some_2 _ _ Hp) as [n Hn].
  unfold totalChildrenCounts. rewrite (lookupNode_Ok _ _ _ Hn). cbn.
  destruct (child_ n) as [c|] eqn:Hc.
  - destruct (wf_child _ _ _ _ _ (wfTrie_node _ _ _ Hwf _ _ Hn) c Hc) as [Hlt _].
    destruct (totalChildrenLoop_total (length h) m c) as (t & Et & Ht & _); [done..|].
    by exists t.
  - exists 0%Z. split; [by destruct (length h)|done].
Qed.
End ChildCounts.

Section Walk.
Context (d : nat → nat) (n : nat) (h : list Node).
Hypothesis Hwf : wfTrie d (Z.of_nat n) h.
Local Open Scope Q_scope.

Lemma childMass_Q gamma count x :
  childMass (num := Q) gamma count x
  = gamma * (inject_Z (count_ x) - knBeta) / (inject_Z count + knAlpha).
Proof. done. Qed.

Lemma childMass_nonneg gamma count p x :
  h !! p = Some x → 0 <= gamma → (0 ≤ count)%Z →
  0 <= childMass (num := Q) gamma count x.
Proof using Hwf.
  intros Hx Hg Hc. rewrite childMass_Q.
  pose proof (wf_count _ _ _ _ _ (wfTrie_node _ _ _ Hwf _ _ Hx)) as Hcnt.
  assert (1 <= inject_Z (count_ x))
    by (change (inject_Z 1 <= inject_Z (count_ x)); by rewrite <- Zle_Qle).
  assert (0 <= inject_Z count)
    by (change (inject_Z 0 <= inject_Z count); by rewrite <- Zle_Qle).
  pose proof knAlpha_Q. pose proof knBeta_Q.
  apply Qle_shift_div_l; [lra|]. rewrite Qmult_0_l.
  apply Qmult_le_0_compat; lra.
Qed.

Lemma assign_Ok (symbol : Z) p (e : Estimate Q) :
  okEstimate n e → (0 < symbol < Z.of_nat n)%Z → 0 <= p →
  ∃ e', assign symbol p e = Ok e' ∧ okEstimate n e' ∧
        totalMass e' = totalMass e - p ∧
        maskLe (exclusionMask e) (exclusionMask e').
Proof.
  intros (Hlen & Hmask & Hpos & Hsum) Hs Hp. unfold assign.
  rewrite Hlen.
  destruct (Z.leb_spec 0 symbol); [|lia].
  destruct (Z.ltb_spec symbol (Z.of_nat n)); [|lia]. cbn.
  eexists; split; [done|]. cbn. split_and!; [|done|apply maskLe_set].
  split_and!; cbn.
  - by rewrite length_alter.
  - intros m Hm. destruct (exclusionMask e) as [m0|]; [|done].
    injection Hm as <-. rewrite length_insert. by apply Hmask.
  - by apply Forall_alter_add.
  - rewrite sumQ_tail_alter_add by lia. lra.
Qed.

(** The inner loop: with [t] the count of the children still to visit that
    are not excluded, the mass left covers what they can take. *)
Lemma childLoop_spec gamma count fuel : ∀ c (e : Estimate Q) t,
  okEstimate n e → 0 <= gamma → (0 ≤ count)%Z →
  (c < length h)%nat → (c < fuel)%nat → (0 < d c)%nat →
  totalChildrenLoop fuel h (exclusionMask e) (Some c) 0%Z = Ok t →
  gamma * inject_Z t <= totalMass e * (inject_Z count + knAlpha) →
  ∃ e', childLoop fuel h gamma count (Some c) e = Ok e' ∧ okEstimate n e' ∧
        0 <= totalMass e'.
Proof using Hwf.
  induction fuel as [|f IH]; intros c e t Hok Hg Hcount Hc Hf Hd Ht Hinv; [lia|].
  destruct (lookup_lt_is_Some_2 _ _ Hc) as [x Hx].
  pose proof (wfTrie_node _ _ _ Hwf _ _ Hx) as [_ Hs _ Hcnt _ Hsym].
  assert (Hnr : c ≠ root_).
  { intros ->. destruct Hwf as (Hd0 & _). rewrite Hd0 in Hd. lia. }
  specialize (Hsym Hnr).
  assert (HA : 0 < inject_Z count + knAlpha).
  { assert (0 <= inject_Z count)
      by (change (inject_Z 0 <= inject_Z count); by rewrite <- Zle_Qle).
    pose proof knAlpha_Q. lra. }
  cbn [childLoop totalChildrenLoop] in *.
  rewrite (lookupNode_Ok _ _ _ Hx) in *.
  cbn [mbind Outcome_bind obind] in Ht |- *.
  rewrite totalChildrenLoop_acc in Ht.
  (* the estimate after this child *)
  assert (Hstep : ∃ e1 t1,
    (if negb (maskAt (exclusionMask e) (symbol_ x))
     then assign (symbol_ x) (childMass gamma count x) e else Ok e) = Ok e1 ∧
    okEstimate n e1 ∧ maskLe (exclusionMask e) (exclusionMask e1) ∧
    totalChildrenLoop f h (exclusionMask e) (next_ x) 0%Z = Ok t1 ∧
    gamma * inject_Z t1 <= totalMass e1 * (inject_Z count + knAlpha)).
  { destruct (totalChildrenLoop f h (exclusionMask e) (next_ x) 0%Z)
      as [t1| | |] eqn:Et1; try done.
    cbn [mbind Outcome_bind obind] in Ht. injection Ht as <-.
    destruct (maskAt (exclusionMask e) (symbol_ x)); cbn [negb] in *.
    - exists e, t1. split_and!; [done|done|apply maskLe_refl|done|].
      by rewrite Z.add_0_l in Hinv.
    - pose proof (childMass_nonneg gamma count c x Hx Hg Hcount) as Hp.
      destruct (assign_Ok (symbol_ x) _ e Hok Hsym Hp) as (e1 & -> & Hok1 & Htm & Hle).
      exists e1, t1. split_and!; [done|done|done|done|].
      rewrite Htm. rewrite Z.add_0_l, inject_Z_plus in Hinv.
      assert (Hpa : childMass gamma count x * (inject_Z count + knAlpha)
                    == gamma * (inject_Z (count_ x) - knBeta)).
      { rewrite childMass_Q. field. lra. }
      pose proof knBeta_Q. 
      assert (0 <= gamma * knBeta) by (apply Qmult_le_0_compat; lra).
      lra. }
  destruct Hstep as (e1 & t1 & -> & Hok1 & Hle & Et1 & Hinv1).
  cbn [mbind Outcome_bind obind].
  destruct (next_ x) as [s|] eqn:Hnext.
  - destruct (Hs s eq_refl) as [Hslt Hds].
    destruct (totalChildrenLoop_total d _ h Hwf f (exclusionMask e) s)
      as (t1' & Et1' & _ & Hmono); [lia|lia|].
    assert (t1' = t1) as -> by congruence.
    destruct (Hmono _ Hle) as (t2 & Et2 & Ht2).
    apply (IH s e1 t2); [done|done|done|lia|lia|lia|done|].
    assert (gamma * inject_Z t2 <= gamma * inject_Z t1); [|lra].
    rewrite !(Qmult_comm gamma). apply Qmult_le_compat_r; [|done].
    rewrite <- Zle_Qle. lia.
  - exists e1. split; [by destruct f|]. split; [done|].
    assert (t1 = 0%Z) as -> by (destruct f; cbn in Et1; congruence).
    rewrite Qmult_0_r in Hinv1.
    apply Qmult_lt_0_le_reg_r with (z := inject_Z count + knAlpha); [done|lra].
Qed.

(** The outer loop along the backoff chain. *)
Lemma backoffWalk_spec fuel : ∀ node (e : Estimate Q),
  okEstimate n e → 0 <= totalMass e →
  (∀ p, node = Some p → (p < length h)%nat ∧ (d p < fuel)%nat) →
  ∃ e', backoffWalk fuel h node (totalMass e) e = Ok e' ∧ okEstimate n e' ∧
        0 <= totalMass e'.
Proof using Hwf.
  induction fuel as [|f IH]; intros [p|] e Hok Htm Hnode;
    try (exists e; by destruct_and?).
  { destruct (Hnode p eq_refl). lia. }
  destruct (Hnode p eq_refl) as [Hp Hf].
  destruct (lookup_lt_is_Some_2 _ _ Hp) as [x Hx].
  pose proof (wfTrie_node _ _ _ Hwf _ _ Hx) as [Hch _ Hb _ _ _].
  destruct (totalChildrenCounts_total d _ h Hwf (exclusionMask e) p Hp)
    as (count & Ec & Hcount).
  cbn [backoffWalk]. rewrite (lookupNode_Ok _ _ _ Hx), Ec.
  cbn [mbind Outcome_bind obind].
  assert (Hchild : ∃ e1,
    (if (count >? 0)%Z then childLoop (length h) h (totalMass e) count (child_ x) e
     else Ok e) = Ok e1 ∧ okEstimate n e1 ∧ 0 <= totalMass e1).
  { destruct (count >? 0)%Z; [|by exists e].
    destruct (child_ x) as [c|] eqn:Hc; [|exists e; by destruct (length h)].
    destruct (Hch c eq_refl) as [Hclt Hdc].
    apply childLoop_spec with (t := count); [done|done|done|done|done|lia| |].
    - unfold totalChildrenCounts in Ec. rewrite (lookupNode_Ok _ _ _ Hx) in Ec.
      cbn [mbind Outcome_bind obind] in Ec. by rewrite Hc in Ec.
    - pose proof knAlpha_Q.
      assert (0 <= totalMass e * knAlpha) by (apply Qmult_le_0_compat; lra).
      lra. }
  destruct Hchild as (e1 & -> & Hok1 & Htm1). cbn [mbind Outcome_bind obind].
  apply IH; [done|done|]. intros b Hbk. destruct (Hb b Hbk). split; [done|lia].
Qed.
End Walk.

Section Redistribution.
Context (n : nat).
Local Open Scope Q_scope.

(** The first loop takes [remainingMass / numUnseenSymbols] once for each
    index it does not skip. *)
Lemma uniformPass_spec remainingMass numUnseenSymbols : ∀ idx (e : Estimate Q),
  okEstimate n e → 0 <= remainingMass → (0 ≤ numUnseenSymbols)%Z →
  Forall (λ i, 0 < i < n)%nat idx →
  let e1 := uniformPass idx remainingMass numUnseenSymbols e in
  okEstimate n e1 ∧ exclusionMask e1 = exclusionMask e ∧
  totalMass e1 ==
    totalMass e - inject_Z (countUnseen idx (exclusionMask e))
                  * (remainingMass / inject_Z numUnseenSymbols).
Proof.
  intros idx e Hok Hrm Hnu Hidx. revert e Hok.
  induction Hidx as [|i idx Hi Hidx IH]; intros e Hok; cbn.
  { split_and!; [done|done|]. change (inject_Z 0) with 0. rewrite Qmult_0_l. lra. }
  set (p := remainingMass / inject_Z numUnseenSymbols).
  assert (Hp : 0 <= p).
  { unfold p. destruct (decide (numUnseenSymbols = 0%Z)) as [->|Hne].
    - unfold Qdiv. change (/ inject_Z 0) with 0. rewrite Qmult_0_r. lra.
    - apply Qle_shift_div_l; [|by rewrite Qmult_0_l].
      change (inject_Z 0 < inject_Z numUnseenSymbols). rewrite <- Zlt_Qlt. lia. }
  destruct (maskAt (exclusionMask e) (Z.of_nat i)); cbn [negb].
  - destruct (IH e Hok) as (Hok1 & Hm1 & Htm1). split_and!; [done|done|].
    rewrite Htm1. rewrite Z.add_0_l. fold p. lra.
  - set (e' := mkEstimate _ _ _).
    assert (Hok' : okEstimate n e').
    { destruct Hok as (Hlen & Hmask & Hpos & Hsum). split_and!; cbn.
      - by rewrite length_alter.
      - done.
      - by apply Forall_alter_add.
      - rewrite sumQ_tail_alter_add by lia. lra. }
    destruct (IH e' Hok') as (Hok1 & Hm1 & Htm1). split_and!; [done|done|].
    rewrite Htm1. cbn. rewrite inject_Z_plus. fold p.
    change (inject_Z 1) with 1. lra.
Qed.

(** The second loop hands out what is left; [newProbMass], the entries
    still to visit and the mass left add up to a constant. *)
Lemma finalPass_spec C : ∀ k a leftSymbols newProbMass (e : Estimate Q),
  okEstimate n e → 0 <= totalMass e →
  (a + k = n)%nat → (1 ≤ a)%nat → leftSymbols = Z.of_nat k →
  newProbMass + sumQ (drop a (probs e)) + totalMass e == C →
  ∃ e2 newProbMass2,
    finalPass (seq a k) leftSymbols newProbMass e = (e2, newProbMass2) ∧
    okEstimate n e2 ∧ 0 <= totalMass e2 ∧
    ((0 < k)%nat → totalMass e2 == 0) ∧
    newProbMass2 + totalMass e2 == C.
Proof.
  induction k as [|k IH]; intros a left npm e Hok Htm Hak Ha Hleft HC.
  { exists e, npm. split_and!; [done|done|done|lia|].
    destruct Hok as (Hlen & _). rewrite drop_ge in HC by lia. cbn in HC. lra. }
  cbn [seq finalPass]. subst left.
  pose proof Hok as (Hlen & Hmask & Hpos & Hsum).
  destruct (lookup_lt_is_Some_2 (probs e) a) as [qa Hqa]; [lia|].
  set (p := ndiv (totalMass e) (ofZ (Z.of_nat (S k)))).
  assert (HS : 1 <= inject_Z (Z.of_nat (S k))).
  { change (inject_Z 1 <= inject_Z (Z.of_nat (S k))). rewrite <- Zle_Qle. lia. }
  assert (Hpl : p * inject_Z (Z.of_nat (S k)) == totalMass e).
  { unfold p. cbn. field. lra. }
  assert (Hp : 0 <= p).
  { unfold p. cbn. apply Qle_shift_div_l; [lra|by rewrite Qmult_0_l]. }
  assert (Hpt : p <= totalMass e).
  { unfold p. cbn. apply Qle_shift_div_r; [lra|].
    assert (totalMass e * 1 <= totalMass e * inject_Z (Z.of_nat (S k))); [|lra].
    rewrite !(Qmult_comm (totalMass e)). by apply Qmult_le_compat_r. }
  clearbody p.
  rewrite list_lookup_alter_eq, Hqa. cbn [fmap option_fmap option_map default].
  set (e' := mkEstimate _ _ _).
  assert (Hok' : okEstimate n e').
  { split_and!; cbn.
    - by rewrite length_alter.
    - done.
    - by apply Forall_alter_add.
    - rewrite sumQ_tail_alter_add by lia. cbn. lra. }
  destruct (IH (S a) (Z.of_nat (S k) - 1)%Z (nadd npm (nadd qa p)) e')
    as (e2 & npm2 & E & Hok2 & Htm2 & Hzero & HC2); [done|cbn; lra|lia|lia|lia| |].
  { cbn. rewrite drop_alter_lt by lia.
    rewrite (drop_S _ _ _ Hqa) in HC. cbn in HC. lra. }
  exists e2, npm2. split_and!; [done|done|done| |done].
  intros _. destruct k as [|k]; [|apply Hzero; lia].
  cbn in E. injection E as <- <-. cbn.
  change (inject_Z (Z.of_nat 1)) with 1 in Hpl. lra.
Qed.

Lemma tail_drop {A} (l : list A) : tail l = drop 1 l.
Proof. by destruct l. Qed.

(** The part of [getProbs] after the walk passes its three assertions and
    returns a distribution. *)
Lemma redistribute_spec (e : Estimate Q) :
  okEstimate n e → 0 <= totalMass e → (2 ≤ n)%nat →
  ∃ e2 newProbMass,
    blend n e = (e2, newProbMass) ∧
    totalMass e2 == 0 ∧ newProbMass == 1 ∧
    redistribute n e = Ok (probs e2) ∧
    length (probs e2) = n ∧ Forall (Qle 0) (probs e2) ∧
    sumQ (tail (probs e2)) == 1.
Proof.
  intros Hok Htm Hn. unfold redistribute, blend.
  set (idx := seq 1 (n - 1)).
  set (nu := countUnseen idx (exclusionMask e)).
  assert (Hidx : Forall (λ i, 0 < i < n)%nat idx).
  { apply Forall_forall. intros i Hi%elem_of_seq. lia. }
  assert (Hnu : (0 ≤ nu)%Z).
  { unfold nu. clear. induction idx as [|i idx IH]; cbn; [done|].
    destruct (negb _); lia. }
  destruct (uniformPass_spec (totalMass e) nu idx e Hok Htm Hnu Hidx)
    as (Hok1 & _ & Htm1). fold nu in Htm1.
  set (e1 := uniformPass idx (totalMass e) nu e) in *.
  assert (Htm1' : 0 <= totalMass e1).
  { rewrite Htm1. destruct (decide (nu = 0%Z)) as [->|Hne].
    - change (inject_Z 0) with 0. rewrite Qmult_0_l. lra.
    - assert (inject_Z nu * (totalMass e / inject_Z nu) == totalMass e); [|lra].
      field. change 0 with (inject_Z 0). rewrite inject_Z_injective. done. }
  destruct (finalPass_spec 1 (n - 1) 1 (Z.of_nat n - 1)%Z (ofZ 0) e1)
    as (e2 & npm2 & E & Hok2 & Htm2 & Hzero & HC); [done|done|lia|lia|lia| |].
  { destruct Hok1 as (_ & _ & _ & Hsum). rewrite <- tail_drop.
    change (ofZ 0) with 0. lra. }
  fold idx in E. 
  exists e2, npm2. rewrite E.
  specialize (Hzero ltac:(lia)).
  pose proof Hok2 as (Hlen2 & _ & Hpos2 & Hsum2).
  assert (Hnpm : npm2 == 1) by lra.
  split_and!; [done|done|done| |done|done|lra].
  assert (H1 : nleb (ofZ 0) (totalMass e) = true) by (by apply Qle_bool_iff).
  assert (H2 : neqb (totalMass e2) (ofZ 0) = true) by (by apply Qeq_bool_iff).
  assert (H3 : nltb (nabs (nsub (ofZ 1) npm2)) epsilon = true).
  { apply negb_true_iff, not_true_is_false.
    change (¬ Qle_bool epsilon (Qabs (1 - npm2)) = true).
    rewrite Qle_bool_iff.
    assert (Habs : Qabs (1 - npm2) == 0) by (by rewrite Hnpm).
    rewrite Habs. pose proof epsilon_Q. lra. }
  by rewrite H1, H2, H3.
Qed.
End Redistribution.

Section GetProbsExact.
Local Open Scope Q_scope.

Lemma sumQ_replicate_0 k : sumQ (replicate k 0) == 0.
Proof. induction k as [|k IH]; cbn; [done|]. rewrite IH. lra. Qed.

Lemma okEstimate_initial k b : okEstimate k (initialEstimate (num := Q) k b).
Proof.
  split_and!; cbn.
  - by rewrite length_replicate.
  - intros m. destruct b; [|done]. intros [= <-]. by rewrite length_replicate.
  - apply Forall_replicate. done.
  - change (sumQ (tail (replicate k 0)) + 1 == 1).
    destruct k as [|k]; cbn [replicate tail]; [cbn; lra|].
    rewrite sumQ_replicate_0. lra.
Qed.

(** [getProbs] on a well-formed model: the walk ends with mass left, the
    redistribution leaves none, and all three assertions hold. *)
Lemma getProbs_spec d st c x :
  wfModel d st → contexts st !! c = Some x →
  let n := length (symbols_ (vocab_ st)) in
  ∃ e e2 newProbMass,
    estimate (num := Q) st c = Ok e ∧ 0 <= totalMass e ∧
    blend n e = (e2, newProbMass) ∧
    totalMass e2 == 0 ∧ newProbMass == 1 ∧
    getProbs st c = Ok (probs e2) ∧
    length (probs e2) = n ∧ Forall (Qle 0) (probs e2) ∧
    sumQ (tail (probs e2)) == 1.
Proof.
  intros (Hwf & Hcomp & Hsz & Hmax & Hroot & Hctx) Hx n.
  destruct (Hctx _ _ Hx) as (hd & Hhd & Hlt & Hord & Hle).
  unfold size in Hwf, Hsz. fold n in Hwf, Hsz.
  destruct (backoffWalk_spec d n (nodes st) Hwf (budget st) (head_ x)
              (initialEstimate n (useExclusion_ st)))
    as (e & Ee & Hok & Htm); [apply okEstimate_initial|done| |].
  { intros p Hp. rewrite Hhd in Hp. injection Hp as <-. split; [done|].
    destruct (lookup_lt_is_Some_2 _ _ Hlt) as [y Hy].
    pose proof (wf_depth _ _ _ _ _ (wfTrie_node _ _ _ Hwf _ _ Hy)).
    unfold budget. lia. }
  destruct (redistribute_spec n e Hok Htm) as (e2 & npm & Eb & H0 & H1 & Er & Hrest);
    [lia|].
  exists e, e2, npm.
  assert (Eest : estimate st c = Ok e) by (unfold estimate; by rewrite Hx).
  split_and!; [done|done|done|done|done| |apply Hrest..].
  unfold getProbs. rewrite Eest. done.
Qed.
End GetProbsExact.

(** ** The budget is immaterial *)

(** A growth that returned returns the same with any larger budget. *)
Lemma addSymbolToNode_fuel fuel : ∀ fuel' node symbol st r st',
  addSymbolToNode_ fuel node symbol st = (Ok r, st') → fuel ≤ fuel' →
  addSymbolToNode_ fuel' node symbol st = (Ok r, st').
Proof.
  induction fuel as [|f IH]; intros fuel' p s st r st' E Hle; [done|].
  destruct fuel' as [|f']; [lia|].
  destruct (findChildWithSymbol (nodes st) p s) as [[r0|]| | |] eqn:Ef.
  - cbn [addSymbolToNode_] in *. unfold mbind, M_bind, bind in *.
    rewrite findChildM_eq, Ef in *. done.
  - rewrite (addSymbolToNode_fresh f _ _ _ Ef) in E.
    rewrite (addSymbolToNode_fresh f' _ _ _ Ef).
    destruct (decide (p = root_)); [done|].
    unfold mbind, M_bind, bind in *.
    destruct (loadNode p (linkChild st p s)) as [[x| | |] st1]; try done.
    destruct (assert (bool_decide (backoff_ x ≠ None)) ErrBackoff st1)
      as [[[]| | |] st2]; try done.
    destruct (deref (backoff_ x) st2) as [[b| | |] st3]; try done.
    destruct (addSymbolToNode_ f b s st3) as [[r1| | |] st4] eqn:Er; try done.
    by rewrite (IH f' _ _ _ _ _ Er) by lia.
  - cbn [addSymbolToNode_] in E. unfold mbind, M_bind, bind in E.
    by rewrite findChildM_eq, Ef in E.
  - cbn [addSymbolToNode_] in E. unfold mbind, M_bind, bind in E.
    by rewrite findChildM_eq, Ef in E.
  - cbn [addSymbolToNode_] in E. unfold mbind, M_bind, bind in E.
    by rewrite findChildM_eq, Ef in E.
Qed.

(** ** Growth, case by case *)

Lemma lookup_linkChild_new st p symbol :
  p < length (nodes st) →
  nodes (linkChild st p symbol) !! length (nodes st)
  = Some (mkNode None (default None (child_ <$> nodes st !! p)) None 1 symbol).
Proof.
  intros Hp. rewrite nodes_linkChild, list_lookup_alter_ne by lia.
  by rewrite lookup_app_r, Nat.sub_diag.
Qed.

Lemma growNode_fresh d st p symbol :
  wfModel d st → p < length (nodes st) → (0 < symbol < size (vocab_ st))%Z →
  findChildWithSymbol (nodes st) p symbol = Ok None →
  let q := length (nodes st) in
  ∃ st' new,
    growNode p symbol st = (Ok q, st') ∧
    nodes st' !! q = Some new ∧ count_ new = 1%Z ∧ symbol_ new = symbol ∧
    findChildWithSymbol (nodes st') p symbol = Ok (Some q) ∧
    if decide (p = root_) then backoff_ new = Some root_
    else ∃ parent b r st2,
           nodes st !! p = Some parent ∧ backoff_ parent = Some b ∧
           growNode b symbol (linkChild st p symbol) = (Ok r, st2) ∧
           st' = linkBackoff st2 q r ∧ backoff_ new = Some r.
Proof.
  intros Hm Hp Hsym Ef q. pose proof Hm as (Hwf & Hcomp & _).
  destruct (growNode_spec d st p symbol Hm Hp Hsym) as (r0 & st' & d' & E & Hg).
  pose proof Hg as (_ & _ & _ & _ & Hfind & _).
  rewrite E. rewrite growNode_eq in E. unfold budget in E.
  rewrite (addSymbolToNode_fresh _ _ _ _ Ef) in E. fold q in E.
  set (st1 := linkChild st p symbol) in *.
  assert (Hlen1 : length (nodes st1) = S q) by apply length_linkChild.
  pose proof (lookup_linkChild_new st p symbol Hp) as Hq1. fold q st1 in Hq1.
  destruct (decide (p = root_)) as [->|Hnr].
  - revert E. mstep ltac:(apply updNode_Ok; lia). intros [= <- <-].
    exists (linkBackoff st1 q root_),
      (setBackoff (Some root_)
         (mkNode None (default None (child_ <$> nodes st !! root_)) None 1 symbol)).
    split_and!; [done| |done|done|done|done].
    by rewrite nodes_linkBackoff, list_lookup_alter_eq, Hq1.
  - destruct (lookup_lt_is_Some_2 _ _ Hp) as [parent Hparent].
    destruct (backoff_ parent) as [b|] eqn:Hb;
      [|destruct (Hcomp (d p) _ _ Hparent Hnr (le_n _) Hb)].
    destruct (wf_backoff _ _ _ _ _ (wfTrie_node _ _ _ Hwf _ _ Hparent) b Hb)
      as [Hblt Hdb].
    set (d1 := extend d q (S (d p))).
    assert (Hold : ∀ x, x < q → d1 x = d x) by (intros; apply extend_old; lia).
    assert (Hdq : d1 q = S (d p)) by apply extend_new.
    destruct (addSymbolToNode_spec (length (nodes st)) st1 b d1 symbol)
      as (r & st2 & d2 & Er & Hg2).
    { by apply wfTrie_linkChild. }
    { rewrite Hold by done. apply complete_linkChild; [|done|lia].
      intros x k Hx Hx0 _. by apply (Hcomp (d x) x). }
    { done. }
    { lia. }
    { rewrite Hold by done.
      pose proof (wf_depth _ _ _ _ _ (wfTrie_node _ _ _ Hwf _ _ Hparent)). lia. }
    destruct Hg2 as (_ & _ & Hgr2 & _).
    pose proof (grows_length _ _ _ _ Hgr2) as Hlen2.
    destruct (Hgr2 _ _ Hq1) as (m2 & Hm2 & Hs2 & _ & _ & _ & _ & Hc2).
    revert E.
    mstep ltac:(apply loadNode_Ok; unfold st1;
                by rewrite nodes_linkChild, list_lookup_alter_eq, lookup_app_l, Hparent).
    cbn [backoff_ setChild]. rewrite Hb.
    mstep ltac:(by rewrite bool_decide_eq_true_2).
    mstep ltac:(done).
    mstep ltac:(exact Er).
    mstep ltac:(apply updNode_Ok; lia).
    intros [= <- <-].
    exists (linkBackoff st2 q r), (setBackoff (Some r) m2).
    split_and!; [done| | | |done|].
    + by rewrite nodes_linkBackoff, list_lookup_alter_eq, Hm2.
    + cbn. rewrite Hc2; [done|]. rewrite Hdq, Hold by done. lia.
    + done.
    + exists parent, b, r, st2. split_and!; [done|done| |done|done].
      rewrite growNode_eq. eapply addSymbolToNode_fuel; [exact Er|].
      unfold budget. lia.
Qed.

(** * The properties of the specification *)

(** Closed facts about a concrete session are settled by running it. *)
Ltac by_running := vm_compute; repeat split; first [congruence | lia].

(** C5.  The non-learning advance, [addSymbolToContext], leaves the trie as
    it finds it, for every state, context and symbol and whatever the
    outcome of the call: the store of nodes after the call is the store
    before it, node for node (counts, child, sibling and backoff links),
    and no node has been added. *)
Theorem addSymbolToContext_keeps_trie (st : PPMLanguageModel) (context : nat) (symbol : Z) :
  let st' := snd (addSymbolToContext context symbol st) in
  nodes st' = nodes st ∧ length (nodes st') = length (nodes st) ∧
  numNodes_ st' = numNodes_ st.
Proof.
  destruct (readsTrie_addSymbolToContext context symbol st) as (Hn & Hk & _).
  cbn. by rewrite Hn, Hk.
Qed.

(** C8.  Both cursor operations ignore a symbol that is not above the root
    symbol: they return normally and the whole state, contexts and trie, is
    unchanged.  On a model (its vocabulary has at least two symbols) both
    throw "Invalid symbol" for a symbol index at or beyond the vocabulary
    size, before anything is written. *)
Theorem symbol_guards (st : PPMLanguageModel) (context : nat) (symbol : Z) :
  ((symbol ≤ rootSymbol)%Z →
     addSymbolToContext context symbol st = (Ok tt, st) ∧
     addSymbolAndUpdate context symbol st = (Ok tt, st)) ∧
  ((1 < size (vocab_ st))%Z → (size (vocab_ st) ≤ symbol)%Z →
     addSymbolToContext context symbol st = (Throw (ErrInvalidSymbol symbol), st) ∧
     addSymbolAndUpdate context symbol st = (Throw (ErrInvalidSymbol symbol), st)).
Proof.
  split.
  - intros H. split; [by apply addSymbolToContext_ignored|by apply addSymbolAndUpdate_ignored].
  - intros H1 H2.
    split; [apply addSymbolToContext_invalid|apply addSymbolAndUpdate_invalid]; lia.
Qed.

Lemma symbol_guards_witness :
  (addSymbolToContext 0 0 exampleModel = (Ok tt, exampleModel) ∧
   addSymbolAndUpdate 0 0 exampleModel = (Ok tt, exampleModel)) ∧
  (addSymbolToContext 0 3 exampleModel = (Throw (ErrInvalidSymbol 3), exampleModel) ∧
   addSymbolAndUpdate 0 3 exampleModel = (Throw (ErrInvalidSymbol 3), exampleModel)).
Proof.
  split.
  - apply (symbol_guards exampleModel 0 0). unfold rootSymbol. lia.
  - apply (symbol_guards exampleModel 0 3); by_running.
Defined.

(** C6.  In every state a session reaches, after a call of
    [addSymbolAndUpdate] every context has an order of at most [maxOrder],
    the context of the call included; and on a context of the model with a
    symbol of the vocabulary the call returns normally. *)
Theorem addSymbolAndUpdate_order (vocab : Vocabulary) (maxOrder : Z) (ops : list Op)
    (context : nat) (symbol : Z) :
  (1 < size vocab)%Z → (0 ≤ maxOrder)%Z →
  let st := session vocab maxOrder ops in
  let st' := snd (addSymbolAndUpdate context symbol st) in
  (∀ c x, contexts st' !! c = Some x → (order_ x ≤ maxOrder_ st')%Z) ∧
  (context < length (contexts st) → (0 < symbol < size (vocab_ st))%Z →
   fst (addSymbolAndUpdate context symbol st) = Ok tt ∧
   ∃ x, contexts st' !! context = Some x ∧ (order_ x ≤ maxOrder_ st')%Z).
Proof.
  intros Hsz Hmax st st'.
  pose proof (WF_session vocab maxOrder ops Hsz Hmax) as Hwf. fold st in Hwf.
  split.
  - pose proof (WF_step st (OpAddSymbolAndUpdate context symbol) Hwf) as [d' Hm'].
    cbn [step] in Hm'. fold st' in Hm'.
    destruct Hm' as (_ & _ & _ & _ & _ & Hctx). intros c x Hx.
    destruct (Hctx _ _ Hx) as (hd & _ & _ & _ & Hle). done.
  - intros Hc Hsym. destruct Hwf as [d Hm].
    destruct (lookup_lt_is_Some_2 _ _ Hc) as [x Hx].
    destruct (addSymbolAndUpdate_spec d st context x symbol Hm Hx Hsym)
      as (hd & r & st1 & d' & x' & _ & _ & Hg & E & Hx' & _).
    unfold st'. rewrite E. cbn [fst snd]. split; [done|]. exists x'.
    destruct Hg as (_ & _ & _ & _ & _ & _ & _ & _ & _ & _ & _ & Hcs).
    split.
    + cbn. rewrite Hcs. by apply list_lookup_insert_eq.
    + destruct Hx' as (hd' & _ & _ & _ & Hle). done.
Qed.

Lemma addSymbolAndUpdate_order_witness :
  let st' := snd (addSymbolAndUpdate 0 1 exampleModel) in
  (∀ c x, contexts st' !! c = Some x → (order_ x ≤ maxOrder_ st')%Z) ∧
  fst (addSymbolAndUpdate 0 1 exampleModel) = Ok tt ∧
  ∃ x, contexts st' !! 0 = Some x ∧ (order_ x ≤ maxOrder_ st')%Z.
Proof.
  destruct (addSymbolAndUpdate_order exampleVocab 2 exampleOps 0 1) as [H1 H2];
    [by_running..|].
  split; [exact H1|]. apply H2; by_running.
Defined.

(** Counts under one call of a session. *)
Lemma step_counts st op :
  WF st →
  ∀ p node, nodes st !! p = Some node →
    ∃ node', nodes (step st op) !! p = Some node' ∧ (count_ node ≤ count_ node')%Z.
Proof.
  intros [d Hm] p node Hp.
  assert (Hsame : nodes (step st op) = nodes st →
    ∃ node', nodes (step st op) !! p = Some node' ∧ (count_ node ≤ count_ node')%Z).
  { intros ->. exists node. split; [done|lia]. }
  destruct op as [|c|c symbol|c symbol|b|s]; cbn [step] in *.
  - apply Hsame, readsTrie_createContext.
  - apply Hsame, readsTrie_cloneContext.
  - apply Hsame, readsTrie_addSymbolToContext.
  - destruct (contexts st !! c) as [x|] eqn:E;
      [|apply Hsame; by rewrite addSymbolAndUpdate_no_context].
    destruct (Z.le_gt_cases symbol 0);
      [apply Hsame; by rewrite addSymbolAndUpdate_ignored|].
    destruct (Z.le_gt_cases (size (vocab_ st)) symbol);
      [apply Hsame; by rewrite addSymbolAndUpdate_invalid by lia|].
    destruct (addSymbolAndUpdate_spec d st c x symbol)
      as (hd & r & st1 & d' & x' & _ & _ & Hg & E' & _); [done|done|lia|].
    rewrite E'. cbn. destruct Hg as (_ & _ & Hgr & _).
    destruct (Hgr _ _ Hp) as (node' & Hn' & _ & _ & _ & Hc & _). eauto.
  - by apply Hsame.
  - by apply Hsame.
Qed.

(** C9.  In every state a session reaches every node of the trie has a
    count of at least 1, and whatever the next call is ([createContext],
    [cloneContext], [addSymbolToContext], [addSymbolAndUpdate], setting the
    exclusion flag, adding to the vocabulary; [getProbs] writes nothing),
    every node that exists is still there after it with a count that is
    not smaller. *)
Theorem counts_never_decrease (vocab : Vocabulary) (maxOrder : Z) (ops : list Op) (op : Op) :
  (1 < size vocab)%Z → (0 ≤ maxOrder)%Z →
  let st := session vocab maxOrder ops in
  ∀ p node, nodes st !! p = Some node →
    (1 ≤ count_ node)%Z ∧
    ∃ node', nodes (step st op) !! p = Some node' ∧ (count_ node ≤ count_ node')%Z.
Proof.
  intros Hsz Hmax st p node Hp.
  pose proof (WF_session vocab maxOrder ops Hsz Hmax) as Hwf. fold st in Hwf.
  split; [|by apply step_counts].
  destruct Hwf as (d & Hwf & _).
  apply (wf_count _ _ _ _ _ (wfTrie_node _ _ _ Hwf _ _ Hp)).
Qed.

Lemma counts_never_decrease_witness :
  ∃ node, nodes exampleModel !! 1 = Some node ∧ count_ node = 2%Z ∧
    (1 ≤ count_ node)%Z ∧
    ∃ node', nodes (step exampleModel (OpAddSymbolAndUpdate 0 1)) !! 1 = Some node' ∧
             (count_ node ≤ count_ node')%Z.
Proof.
  eexists. split; [vm_compute; reflexivity|]. split; [reflexivity|].
  apply (counts_never_decrease exampleVocab 2 exampleOps (OpAddSymbolAndUpdate 0 1));
    by_running.
Defined.

(** C10.  In every state a session reaches, for a context of the model and
    a symbol of the vocabulary: the node [addSymbolToNode_] returns for the
    head of the context is the node [findChildWithSymbol] finds under that
    head afterwards, so the assertion of [addSymbolAndUpdate] holds and the
    call returns normally. *)
Theorem grown_node_is_found (vocab : Vocabulary) (maxOrder : Z) (ops : list Op)
    (context : nat) (x : Context) (symbol : Z) :
  (1 < size vocab)%Z → (0 ≤ maxOrder)%Z →
  let st := session vocab maxOrder ops in
  contexts st !! context = Some x → (0 < symbol < size (vocab_ st))%Z →
  ∃ hd symbolNode st1,
    head_ x = Some hd ∧
    growNode hd symbol st = (Ok symbolNode, st1) ∧
    findChildWithSymbol (nodes st1) hd symbol = Ok (Some symbolNode) ∧
    fst (addSymbolAndUpdate context symbol st) = Ok tt.
Proof.
  intros Hsz Hmax st Hx Hsym.
  destruct (WF_session vocab maxOrder ops Hsz Hmax) as [d Hm]. fold st in Hm.
  destruct (addSymbolAndUpdate_spec d st context x symbol Hm Hx Hsym)
    as (hd & r & st1 & d' & x' & Hhd & Eg & Hg & E & _).
  exists hd, r, st1. rewrite E. split_and!; [done|done| |done].
  by destruct Hg as (_ & _ & _ & _ & Hfind & _).
Qed.

Lemma grown_node_is_found_witness :
  ∃ hd symbolNode st1,
    head_ (mkContext (Some 4) 2) = Some hd ∧
    growNode hd 1 exampleModel = (Ok symbolNode, st1) ∧
    findChildWithSymbol (nodes st1) hd 1 = Ok (Some symbolNode) ∧
    fst (addSymbolAndUpdate 0 1 exampleModel) = Ok tt.
Proof.
  apply (grown_node_is_found exampleVocab 2 exampleOps 0 (mkContext (Some 4) 2) 1);
    by_running.
Defined.







Section Uniform.
Local Open Scope Q_scope.

Lemma countUnseen_none idx m :
  (∀ i, maskAt m i = false) → countUnseen idx m = Z.of_nat (length idx).
Proof.
  intros Hm. induction idx as [|i idx IH]; [done|].
  cbn [countUnseen length]. rewrite Hm, IH. cbn. lia.
Qed.

Lemma maskAt_initial k b i :
  maskAt (exclusionMask (initialEstimate (num := Q) k b)) i = false.
Proof.
  destruct b; cbn; [|done]. destruct (i <? 0)%Z; [done|].
  destruct (replicate k false !! Z.to_nat i) as [x|] eqn:E; [|done].
  by apply lookup_replicate in E as [-> _].
Qed.

(** With nothing excluded the first loop adds the same share at every
    index it visits. *)
Lemma uniformPass_lookup remainingMass numUnseenSymbols : ∀ idx (e : Estimate Q) i,
  NoDup idx → (∀ j, maskAt (exclusionMask e) j = false) →
  probs (uniformPass idx remainingMass numUnseenSymbols e) !! i
  = if decide (i ∈ idx)
    then (λ q, q + remainingMass / inject_Z numUnseenSymbols) <$> probs e !! i
    else probs e !! i.
Proof.
  induction idx as [|j idx IH]; intros e i Hnd Hm.
  { cbn. by rewrite decide_False by apply not_elem_of_nil. }
  apply NoDup_cons in Hnd as [Hj Hnd].
  cbn [uniformPass]. rewrite Hm. cbn [negb].
  rewrite IH by done. cbn [probs].
  destruct (decide (i = j)) as [->|Hne].
  - rewrite (decide_False _ _ Hj), decide_True by left.
    by rewrite list_lookup_alter_eq.
  - rewrite list_lookup_alter_ne by done.
    destruct (decide (i ∈ idx)) as [Hi|Hi].
    + by rewrite decide_True by (by right).
    + rewrite decide_False; [done|]. by intros [?|?]%elem_of_cons.
Qed.

(** With no mass left the second loop changes no entry. *)
Lemma finalPass_zero : ∀ idx leftSymbols newProbMass (e : Estimate Q),
  totalMass e == 0 →
  ∀ i q2, probs (fst (finalPass idx leftSymbols newProbMass e)) !! i = Some q2 →
          ∃ q1, probs e !! i = Some q1 ∧ q2 == q1.
Proof.
  induction idx as [|j idx IH]; intros left npm e Htm i q2 Hq2.
  { exists q2. done. }
  cbn [finalPass] in Hq2. set (p := ndiv (totalMass e) (ofZ left)) in *.
  assert (Hp : p == 0).
  { unfold p. change (totalMass e / inject_Z left == 0).
    unfold Qdiv. rewrite Htm. apply Qmult_0_l. }
  clearbody p.
  apply IH in Hq2 as (q1 & Hq1 & Heq).
  2:{ change (totalMass e - p == 0). rewrite Htm, Hp. lra. }
  cbn [probs] in Hq1. destruct (decide (i = j)) as [->|Hne].
  - rewrite list_lookup_alter_eq in Hq1.
    destruct (probs e !! j) as [q0|]; [|done]. injection Hq1 as <-.
    exists q0. split; [done|]. rewrite Heq.
    change (q0 + p == q0). rewrite Hp. lra.
  - rewrite list_lookup_alter_ne in Hq1 by done. eauto.
Qed.
End Uniform.

(** On a model that has observed nothing [getProbs] is [freshProbs] of the
    vocabulary size, in every arithmetic. *)
Lemma getProbs_fresh {num : Type} `{Number num} vocab maxOrder useExclusion :
  getProbs (num := num)
    (snd (createContext (setUseExclusion (initModel vocab maxOrder) useExclusion))) 0
  = freshProbs (length (symbols_ vocab)) useExclusion.
Proof. reflexivity. Qed.

Lemma nearUniform_upto_64 :
  forallb (λ n, nearUniform n false && nearUniform n true) (seq 2 63) = true.
Proof. vm_compute. reflexivity. Qed.

Lemma freshProbs_Q (n : nat) (useExclusion : bool) :
  (2 ≤ n)%nat →
  ∃ result,
    freshProbs (num := Q) n useExclusion = Ok result ∧ length result = n ∧
    ∀ i q, result !! i = Some q →
           (q == if decide (i = 0%nat) then 0 else 1 / inject_Z (Z.of_nat n - 1))%Q.
Proof.
  intros Hn. unfold freshProbs.
  set (e := initialEstimate (num := Q) n useExclusion).
  assert (Hok : okEstimate n e) by apply okEstimate_initial.
  destruct (redistribute_spec n e Hok) as (e2 & npm & Eb & _ & _ & Er & Hlen & _);
    [done|lia|].
  exists (probs e2). split_and!; [done|done|].
  intros i q Hq.
  unfold blend in Eb. set (idx := seq 1 (n - 1)) in Eb.
  assert (Hmask : ∀ j, maskAt (exclusionMask e) j = false)
    by apply maskAt_initial.
  rewrite (countUnseen_none idx _ Hmask) in Eb.
  assert (Hlenidx : length idx = (n - 1)%nat) by apply length_seq.
  rewrite Hlenidx in Eb.
  set (e1 := uniformPass idx (totalMass e) (Z.of_nat (n - 1)) e) in Eb.
  assert (Hidx : Forall (λ i, 0 < i < n)%nat idx).
  { apply Forall_forall. intros j Hj%elem_of_seq. lia. }
  destruct (uniformPass_spec n (totalMass e) (Z.of_nat (n - 1)) idx e Hok)
    as (_ & _ & Htm1); [done|lia|done|]. fold e1 in Htm1.
  rewrite (countUnseen_none idx _ Hmask), Hlenidx in Htm1.
  assert (Hnz : ¬ (inject_Z (Z.of_nat (n - 1)) == 0)%Q).
  { change 0%Q with (inject_Z 0). rewrite inject_Z_injective. lia. }
  assert (Htm0 : (totalMass e1 == 0)%Q).
  { rewrite Htm1. change (totalMass e) with 1%Q. field. done. }
  pose proof (finalPass_zero idx (Z.of_nat n - 1) (ofZ 0) e1 Htm0 i q) as Hfin.
  rewrite Eb in Hfin. destruct (Hfin Hq) as (q1 & Hq1 & ->).
  unfold e1 in Hq1. rewrite uniformPass_lookup in Hq1 by (done || apply NoDup_seq).
  assert (Hi : (i < n)%nat).
  { destruct (decide (i ∈ idx)); [|by apply lookup_replicate in Hq1 as [_ ?]].
    destruct (probs e !! i) eqn:E; [|done].
    by apply lookup_replicate in E as [_ ?]. }
  change (probs e) with (replicate n (0 : Q)) in Hq1.
  rewrite lookup_replicate_2 in Hq1 by done.
  destruct (decide (i = 0%nat)) as [->|Hi0].
  - rewrite decide_False in Hq1 by (intros H%elem_of_seq; lia).
    by injection Hq1 as <-.
  - rewrite decide_True in Hq1 by (apply elem_of_seq; lia).
    injection Hq1 as <-. change (totalMass e) with 1%Q.
    replace (Z.of_nat n - 1)%Z with (Z.of_nat (n - 1)) by lia.
    field. done.
Qed.

Lemma freshProbs_binary64 (n : nat) (useExclusion : bool) :
  (2 ≤ n ≤ 64)%nat →
  ∃ result,
    freshProbs (num := float) n useExclusion = Ok result ∧ length result = n ∧
    ∀ i q, result !! i = Some q →
           if decide (i = 0%nat) then neqb q (ofZ 0) = true
           else nltb (nabs (nsub q (ndiv (ofZ 1) (ofZ (Z.of_nat n - 1))))) epsilon = true.
Proof.
  intros Hn.
  assert (Hin : n ∈ seq 2 63) by (apply elem_of_seq; lia).
  pose proof (proj1 (forallb_forall _ _) nearUniform_upto_64 n
                (proj1 (list_elem_of_In _ _) Hin)) as Hnear.
  assert (Hb : nearUniform n useExclusion = true).
  { apply andb_prop in Hnear as [? ?]. by destruct useExclusion. }
  unfold nearUniform in Hb.
  destruct (freshProbs n useExclusion) as [[|p0 ps]| | |]; try done.
  apply andb_prop in Hb as [Hb Hall]. apply andb_prop in Hb as [H0 Hlen].
  apply Nat.eqb_eq in Hlen.
  exists (p0 :: ps). split_and!; [done|cbn; lia|].
  intros [|i] q Hq; cbn in Hq.
  - by injection Hq as <-.
  - rewrite decide_False by done.
    apply (proj1 (forallb_forall _ _) Hall).
    apply list_elem_of_In. by eapply list_elem_of_lookup_2.
Qed.




(** C4.  The vocabulary does not keep index 0 for the root symbol: the
    constructor leaves the symbol array empty, so the first character added
    to a new vocabulary is stored at index 0, [addSymbol] returns 0 for it,
    which is [rootSymbol], and so does [getSymbolIndex] afterwards. *)
Theorem addSymbol_first_is_root (symbol : string) :
  addSymbol newVocabulary symbol = (rootSymbol, mkVocabulary [symbol]) ∧
  getSymbolIndex (snd (addSymbol newVocabulary symbol)) symbol = rootSymbol.
Proof.
  split; [done|]. cbn. by rewrite String.eqb_refl.
Qed.

(** * Further properties *)

(** X1.  [cloneContext] on a context of the model returns a new context,
    leaves the trie alone, and [getProbs] gives for the clone, in every
    arithmetic, exactly what it gives for the original, which it gives as
    before. *)
Theorem cloneContext_same_probs {num : Type} `{Number num}
    (st : PPMLanguageModel) (context : nat) (x : Context) :
  contexts st !! context = Some x →
  ∃ clone st',
    cloneContext context st = (Ok clone, st') ∧ clone ≠ context ∧
    nodes st' = nodes st ∧
    getProbs (num := num) st' clone = getProbs st context ∧
    getProbs (num := num) st' context = getProbs st context.
Proof.
  intros Hx. pose proof (lookup_lt_Some _ _ _ Hx) as Hlt.
  exists (length (contexts st)),
    (setContexts st (contexts st ++ [mkContext (head_ x) (order_ x)])).
  split_and!.
  - unfold cloneContext. by erewrite bind_Ok by (by apply loadContext_Ok).
  - lia.
  - done.
  - unfold getProbs, estimate. cbn.
    rewrite lookup_app_r, Nat.sub_diag, Hx by done. done.
  - unfold getProbs, estimate. cbn. by rewrite lookup_app_l.
Qed.

Lemma cloneContext_same_probs_witness :
  ∃ clone st',
    cloneContext 0 exampleModel = (Ok clone, st') ∧ clone ≠ 0 ∧
    nodes st' = nodes exampleModel ∧
    getProbs (num := float) st' clone = getProbs exampleModel 0 ∧
    getProbs (num := float) st' 0 = getProbs exampleModel 0.
Proof.
  apply (cloneContext_same_probs exampleModel 0 (mkContext (Some 4) 2)).
  by_running.
Defined.

(** X2.  The scenario of the specification, vocabulary {root, A, B} with
    maximum order 2 and A, A, B observed from a fresh context: in binary64
    [getProbs] passes its assertions and gives A a strictly higher
    probability than B; in exact arithmetic the two are 449/698 and
    249/698. *)
Theorem scenario_A_above_B :
  (∃ a b, getProbs (num := float) exampleModel 0 = Ok [ofZ 0; a; b] ∧
          nltb b a = true) ∧
  (∃ a b, getProbs (num := Q) exampleModel 0 = Ok [ofZ 0; a; b] ∧
          (a == 449 # 698)%Q ∧ (b == 249 # 698)%Q).
Proof.
  split.
  - eexists _, _. vm_compute. split; reflexivity.
  - eexists _, _. vm_compute. repeat split; reflexivity.
Qed.

(** X3.  In every state a session reaches the backoff links form chains
    that end at the root: the root has no backoff link, every other node
    has one, to a node of the trie, and there is a depth for the nodes that
    is 0 at the root and goes down by one along every backoff link. *)
Theorem backoff_chains (vocab : Vocabulary) (maxOrder : Z) (ops : list Op) :
  (1 < size vocab)%Z → (0 ≤ maxOrder)%Z →
  let st := session vocab maxOrder ops in
  ∃ depth : nat → nat,
    depth root_ = 0 ∧
    ∀ p node, nodes st !! p = Some node →
      match backoff_ node with
      | None => p = root_
      | Some b => p ≠ root_ ∧ b < length (nodes st) ∧ depth p = S (depth b)
      end.
Proof.
  intros Hsz Hmax st.
  destruct (WF_session vocab maxOrder ops Hsz Hmax) as (d & Hwf & Hcomp & _).
  fold st in Hwf, Hcomp. exists d. split; [by destruct Hwf|].
  intros p node Hp. destruct (backoff_ node) as [b|] eqn:Hb.
  - destruct (wf_backoff _ _ _ _ _ (wfTrie_node _ _ _ Hwf _ _ Hp) b Hb) as [Hlt Hd].
    split_and!; [|done|done]. intros ->. destruct Hwf as (Hd0 & _). lia.
  - destruct (decide (p = root_)) as [|Hne]; [done|].
    destruct (Hcomp (d p) _ _ Hp Hne (le_n _) Hb).
Qed.

Lemma backoff_chains_witness :
  ∃ depth : nat → nat,
    depth root_ = 0 ∧
    ∀ p node, nodes exampleModel !! p = Some node →
      match backoff_ node with
      | None => p = root_
      | Some b => p ≠ root_ ∧ b < length (nodes exampleModel) ∧ depth p = S (depth b)
      end.
Proof.
  apply (backoff_chains exampleVocab 2 exampleOps); by_running.
Defined.

(** X4.  In every state a session reaches, [addSymbolToContext] on a
    context of the model with a symbol of the vocabulary returns normally,
    changes that context only, and leaves it on a node of the trie with an
    order between 0 and [maxOrder]. *)
Theorem addSymbolToContext_total (vocab : Vocabulary) (maxOrder : Z) (ops : list Op)
    (context : nat) (symbol : Z) :
  (1 < size vocab)%Z → (0 ≤ maxOrder)%Z →
  let st := session vocab maxOrder ops in
  context < length (contexts st) → (0 < symbol < size (vocab_ st))%Z →
  ∃ x hd,
    addSymbolToContext context symbol st = (Ok tt, withContext st context x) ∧
    head_ x = Some hd ∧ hd < length (nodes st) ∧
    (0 ≤ order_ x ≤ maxOrder_ st)%Z.
Proof.
  intros Hsz Hmax st Hc Hsym.
  destruct (WF_session vocab maxOrder ops Hsz Hmax) as [d Hm]. fold st in Hm.
  destruct (lookup_lt_is_Some_2 _ _ Hc) as [x0 Hx0].
  destruct (addSymbolToContext_spec d st context x0 symbol Hm Hx0 Hsym)
    as (x & E & hd & Hhd & Hlt & Hord & Hle).
  exists x, hd. split_and!; [done|done|done|lia|done].
Qed.

Lemma addSymbolToContext_total_witness :
  ∃ x hd,
    addSymbolToContext 0 1 exampleModel = (Ok tt, withContext exampleModel 0 x) ∧
    head_ x = Some hd ∧ hd < length (nodes exampleModel) ∧
    (0 ≤ order_ x ≤ maxOrder_ exampleModel)%Z.
Proof.
  apply (addSymbolToContext_total exampleVocab 2 exampleOps 0 1); by_running.
Defined.
